(** * montecarlo: bit strings and exact enumeration of an Ising Hamiltonian

    A shallow embedding of [montecarlo/montecarlo.py] (classes [BitString]
    and [IsingHamiltonian]) together with the properties of its documented
    behaviour.

    Conventions of the embedding.
    - Python integers are [Z]; numpy [int64] cells are [Z] with the range
      check (on store) or the wrap-around (on array arithmetic) written out.
    - Python floats are idealised as exact numbers: rationals [Q] for the
      couplings, the fields and the energies, reals [R] where [np.exp]
      enters.  The rounding of this arithmetic is not modelled.
    - A raised exception is the [Raise] outcome of [result]; methods that
      mutate their receiver return the outcome together with the receiver
      as it is left behind.
    - [math.log2] is a library function: the only use the program makes of
      it, the test [math.log2(dec) >= k] on a positive integer, is the
      operation of the class [Math], and each property states what it
      needs of that test. *)

From Stdlib Require Import ZArith List Bool Lia QArith Qreals Reals Lra.
From Stdlib Require String Ascii DecimalString.
Import String.StringSyntax.
Delimit Scope string_scope with string.
Import ListNotations.
Open Scope Z_scope.

(** ** Python outcomes *)

Inductive exn : Type :=
| NameError
| IndexError
| ValueError
| TypeError
| OverflowError.

Inductive result (A : Type) : Type :=
| Ok (a : A)
| Raise (e : exn).

Arguments Ok {A} a.
Arguments Raise {A} e.

Definition bind {A B : Type} (r : result A) (k : A -> result B) : result B :=
  match r with
  | Ok a => k a
  | Raise e => Raise e
  end.

Notation "x <- c ;; k" := (bind c (fun x => k))
  (at level 61, c at next level, right associativity).

(** A [for] loop whose body may raise: the state is threaded through the
    items in order and the first exception ends the loop. *)
Fixpoint for_each {A S : Type} (items : list A) (body : A -> S -> result S)
  (s : S) : result S :=
  match items with
  | [] => Ok s
  | a :: rest => s' <- body a s ;; for_each rest body s'
  end.

(** [range(n)]: the integers [0 .. n-1], empty when [n <= 0]. *)
Definition range (n : Z) : list Z := map Z.of_nat (seq 0 (Z.to_nat n)).

Definition len {A : Type} (l : list A) : Z := Z.of_nat (length l).

(** The argument of [set_int_config] is dynamically typed: the program
    passes integers and, in one place, [None]. *)
Inductive pyobj : Type :=
| PyInt (d : Z)
| PyNone.

(** ** Sequences indexed the Python way *)

(** Index normalisation shared by Python lists and numpy arrays: a
    negative index counts from the end, anything outside [-len, len)
    raises [IndexError]. *)
Definition norm_index (n i : Z) : result nat :=
  if (0 <=? i) && (i <? n) then Ok (Z.to_nat i)
  else if (- n <=? i) && (i <? 0) then Ok (Z.to_nat (n + i))
  else Raise IndexError.

Definition getitem {A : Type} (a : list A) (i : Z) : result A :=
  k <- norm_index (len a) i ;;
  match nth_error a k with
  | Some v => Ok v
  | None => Raise IndexError
  end.

Fixpoint list_set {A : Type} (k : nat) (v : A) (l : list A) : list A :=
  match l, k with
  | [], _ => []
  | _ :: t, O => v :: t
  | h :: t, S k' => h :: list_set k' v t
  end.

Definition int64_min : Z := - 2 ^ 63.
Definition int64_max : Z := 2 ^ 63 - 1.

Definition in_int64 (v : Z) : bool := (int64_min <=? v) && (v <=? int64_max).

(** Two's complement wrap-around of numpy [int64] arithmetic. *)
Definition wrap64 (v : Z) : Z := (v + 2 ^ 63) mod 2 ^ 64 - 2 ^ 63.

(** [a[i] = v] on an [int64] array: the index is resolved first, then the
    value is converted. *)
Definition setitem (a : list Z) (i : Z) (v : Z) : result (list Z) :=
  k <- norm_index (len a) i ;;
  if in_int64 v then Ok (list_set k v a) else Raise OverflowError.

(** ** The one operation taken from [math] *)

Class Math : Type := {
  (** [log2_ge dec k] is the truth value of [math.log2(dec) >= k] for a
      positive integer [dec]. *)
  log2_ge : Z -> Z -> bool
}.

(** The comparison is exact below [2^B]: it holds exactly when
    [2^k <= dec].  IEEE binary64 gives this up to [B = 49] and no further:
    [log2] of an integer just below a large power of two rounds up to
    that power's exponent. *)
Definition log2_exact_below `{Math} (B : Z) : Prop :=
  forall dec k, 0 < dec < 2 ^ B -> 0 <= k < B ->
    log2_ge dec k = (2 ^ k <=? dec).

(** Whatever the rounding, a value that is at least [2^(k+1)] has a
    logarithm that compares [>= k]. *)
Definition log2_ge_clear `{Math} : Prop :=
  forall dec k, 0 <= k -> 2 ^ (k + 1) <= dec -> log2_ge dec k = true.

(** The comparison computed without rounding. *)
Definition ideal_math : Math := {| log2_ge dec k := 2 ^ k <=? dec |}.

(** The comparison with the first rounding of binary64 put in:
    [log2 (2^49 - 1)] lies less than half a unit in the last place below
    49 and is returned as [49.0], so [math.log2(2**49 - 1) >= 49] is true
    although [2^49 - 1 < 2^49].  Elsewhere this instance compares
    exactly. *)
Definition rounding_math : Math :=
  {| log2_ge dec k := (2 ^ k <=? dec) || ((dec =? 2 ^ 49 - 1) && (k =? 49)) |}.

(** ** class BitString *)

Module BitString.

Record t : Type := mk { N : Z; config : list Z }.

(** [__init__]: [np.zeros(N, dtype=int)] refuses a negative length. *)
Definition init (n : Z) : result t :=
  if n <? 0 then Raise ValueError
  else Ok (mk n (repeat 0 (Z.to_nat n))).

(** [__eq__]: compares the first [self.N] cells, left operand first. *)
Fixpoint eq_loop (xs : list Z) (a b : list Z) : result bool :=
  match xs with
  | [] => Ok true
  | x :: rest =>
      u <- getitem a x ;;
      v <- getitem b x ;;
      if negb (u =? v) then Ok false else eq_loop rest a b
  end.

Definition eq (self other : t) : result bool :=
  eq_loop (range (N self)) (config self) (config other).

(** [__len__] *)
Definition length (self : t) : Z := N self.

Definition on (self : t) : Z :=
  fold_left (fun ones x => if x =? 1 then ones + 1 else ones) (config self) 0.

Definition off (self : t) : Z :=
  fold_left (fun zeroes x => if x =? 0 then zeroes + 1 else zeroes)
    (config self) 0.

(** [flip_site]: mutates the array in place; on an exception nothing has
    been written. *)
Definition flip_site (self : t) (i : Z) : result unit * t :=
  match getitem (config self) i with
  | Raise e => (Raise e, self)
  | Ok v =>
      match setitem (config self) i (if v =? 1 then 0 else 1) with
      | Raise e => (Raise e, self)
      | Ok c => (Ok tt, mk (N self) c)
      end
  end.

(** [int] *)
Definition int (self : t) : result Z :=
  for_each (range (N self))
    (fun x dec =>
       v <- getitem (config self) x ;;
       Ok (if v =? 1 then dec + 2 ^ (N self - x - 1) else dec))
    0.

(** [set_config]: cells are overwritten one by one, so the writes made
    before an exception stay. *)
Fixpoint set_config_loop (xs : list Z) (s : list Z) (c : list Z)
  : result unit * list Z :=
  match xs with
  | [] => (Ok tt, c)
  | x :: rest =>
      match getitem s x with
      | Raise e => (Raise e, c)
      | Ok v =>
          match setitem c x v with
          | Raise e => (Raise e, c)
          | Ok c' => set_config_loop rest s c'
          end
      end
  end.

Definition set_config (self : t) (s : list Z) : result unit * t :=
  let '(r, c) := set_config_loop (range (N self)) s (config self) in
  (r, mk (N self) c).

(** [set_int_config]: the loop works on the array of a fresh
    [BitString(self.N)]; [cfg] is that array and [dec] the running
    remainder.  [None == 0] is false and [math.log2(None)] raises
    [TypeError]; [math.log2] of a negative integer raises [ValueError]. *)
Fixpoint set_int_config_loop `{Math} (n : Z) (xs : list Z) (cfg : list Z)
  (dec : pyobj) : result (list Z) :=
  match xs with
  | [] => Ok cfg
  | x :: rest =>
      match dec with
      | PyNone => Raise TypeError
      | PyInt d =>
          if d =? 0 then Ok cfg
          else if d <? 0 then Raise ValueError
          else if log2_ge d (n - x - 1) then
            cfg' <- setitem cfg x 1 ;;
            set_int_config_loop n rest cfg' (PyInt (d - 2 ^ (n - x - 1)))
          else set_int_config_loop n rest cfg dec
      end
  end.

Definition set_int_config `{Math} (self : t) (dec : pyobj) : result unit * t :=
  match init (N self) with
  | Raise e => (Raise e, self)
  | Ok other_bs =>
      match set_int_config_loop (N other_bs) (range (N other_bs))
              (config other_bs) dec with
      | Raise e => (Raise e, self)
      | Ok c => (Ok tt, mk (N self) c)
      end
  end.

End BitString.

(** ** class IsingHamiltonian *)

Definition Qlt_bool (x y : Q) : bool := negb (Qle_bool y x).

(** A method call inside a function body: an exception leaves the
    function, otherwise the body goes on with the mutated receiver. *)
Definition call {A S : Type} (o : result A * S) : result S :=
  match fst o with
  | Ok _ => Ok (snd o)
  | Raise e => Raise e
  end.

(** [np.power(2, n)] is computed in [int64]. *)
Definition np_power2 (n : Z) : Z := wrap64 (2 ^ n).

(** [2 * config - 1] on an [int64] array. *)
Definition spins (c : list Z) : list Z := map (fun b => wrap64 (2 * b - 1)) c.

(** [np.sum] of an [int64] array. *)
Definition np_sum (v : list Z) : Z := wrap64 (fold_left Z.add v 0).

(** [np.dot] of a float vector with an integer vector of one dimension:
    the lengths must agree. *)
Definition np_dot (u : list Q) (v : list Z) : result Q :=
  if negb (len u =? len v) then Raise ValueError
  else Ok (fold_left (fun acc p => acc + fst p * inject_Z (snd p))%Q
             (combine u v) 0%Q).

Module IsingHamiltonian.

(** [J] is the per-site list of (neighbour, strength) pairs and [mu] the
    field vector, as passed to the constructor.  The arrays [nodes] and
    [js] that the constructor also fills are read by no method and are
    left out. *)
Record t : Type := mk { J : list (list (Z * Q)); mu : list Q }.

Definition N (self : t) : Z := len (J self).

(** One pair [j] of site [i]'s list inside [energy]. *)
Definition energy_pair (cfg : list Z) (i : Z) (j : Z * Q) (e : Q) : result Q :=
  if fst j <? i then Ok e
  else
    ci <- getitem cfg i ;;
    cj <- getitem cfg (fst j) ;;
    Ok (if ci =? cj then e + snd j else e - snd j)%Q.

(** [energy]: the dimension guard calls the name [error], which is bound
    nowhere, so taking that branch raises [NameError]. *)
Definition energy (self : t) (c : BitString.t) : result Q :=
  let cfg := BitString.config c in
  if negb (len cfg =? len (J self)) then Raise NameError
  else
    e <- for_each (range (BitString.N c))
           (fun i e =>
              Ji <- getitem (J self) i ;;
              for_each Ji (energy_pair cfg i) e)
           0%Q ;;
    d <- np_dot (mu self) (spins cfg) ;;
    Ok (e + d)%Q.

(** The accumulators of [compute_average_values]. *)
Record sums : Type := mk_sums { sE : R; sM : R; sZ : R; sEE : R; sMM : R }.

Definition average_step `{Math} (self : t) (T : R) (i : Z)
  (st : BitString.t * sums) : result (BitString.t * sums) :=
  let '(conf, a) := st in
  conf <- call (BitString.set_int_config conf (PyInt i)) ;;
  Ei <- energy self conf ;;
  let Ei := Q2R Ei in
  let Zi := exp (- Ei / T) in
  let Mi := IZR (np_sum (spins (BitString.config conf))) in
  Ok (conf,
      mk_sums (sE a + Ei * Zi) (sM a + Mi * Zi) (sZ a + Zi)
        (sEE a + Ei * Ei * Zi) (sMM a + Mi * Mi * Zi))%R.

Definition compute_average_values `{Math} (self : t) (T : R)
  : result (R * R * R * R) :=
  conf <- BitString.init (N self) ;;
  st <- for_each (range (2 ^ BitString.N conf)) (average_step self T)
          (conf, mk_sums 0 0 0 0 0) ;;
  let a := snd st in
  let E := (sE a / sZ a)%R in
  let M := (sM a / sZ a)%R in
  let EE := (sEE a / sZ a)%R in
  let MM := (sMM a / sZ a)%R in
  let HC := ((EE - E * E) / (T * T))%R in
  let MS := ((MM - M * M) / T)%R in
  Ok (E, M, HC, MS).

(** The loop state of [get_lowest_energy_config]: the scratch bit string,
    [emin] and [xmin].  The lists [x] and [y] that the loop also appends
    to are never read and are left out.  The test [ecurrent < emin] is
    taken on the exact energies; it is the test of the source wherever the
    energies are computed without rounding (see [binary64_exact]). *)
Definition lowest_step `{Math} (self : t) (i : Z)
  (st : BitString.t * Q * pyobj) : result (BitString.t * Q * pyobj) :=
  let '(my_bs, emin, xmin) := st in
  my_bs <- call (BitString.set_int_config my_bs (PyInt i)) ;;
  ecurrent <- energy self my_bs ;;
  if Qlt_bool ecurrent emin then Ok (my_bs, ecurrent, PyInt i)
  else Ok (my_bs, emin, xmin).

Definition get_lowest_energy_config `{Math} (self : t)
  : result (Q * list Z) :=
  my_bs <- BitString.init (N self) ;;
  my_bs <- call (BitString.set_int_config my_bs (PyInt 0)) ;;
  emin <- energy self my_bs ;;
  st <- for_each (range (np_power2 (BitString.N my_bs))) (lowest_step self)
          (my_bs, emin, PyNone) ;;
  let '(my_bs, emin, xmin) := st in
  my_bs <- call (BitString.set_int_config my_bs xmin) ;;
  Ok (emin, BitString.config my_bs).

End IsingHamiltonian.

(** ** Notions used to state the properties *)

Definition is_bit (v : Z) : bool := (v =? 0) || (v =? 1).

(** The binary representation of [d] on [k] positions, position 0 being
    the most significant bit. *)
Fixpoint bits_msb (k : nat) (d : Z) : list Z :=
  match k with
  | O => []
  | S k' => Z.b2z (Z.testbit d (Z.of_nat k')) :: bits_msb k' d
  end.

(** A bit string whose array has the declared length and holds bits. *)
Definition wf_bits (b : BitString.t) : bool :=
  (len (BitString.config b) =? BitString.N b)
  && forallb is_bit (BitString.config b).

(** The bit strings obtained from the constructor by the public mutators:
    [flip_site] at any index, [set_config] with a 0/1 list of length [N]
    and [set_int_config] with [0 <= d < 2^N]; the receiver counts as
    obtained whether the call returned or raised. *)
Inductive reachable `{Math} : BitString.t -> Prop :=
| reach_init n b :
    BitString.init n = Ok b -> reachable b
| reach_flip_site b i :
    reachable b -> reachable (snd (BitString.flip_site b i))
| reach_set_config b s :
    reachable b -> len s = BitString.N b -> forallb is_bit s = true ->
    reachable (snd (BitString.set_config b s))
| reach_set_int_config b d :
    reachable b -> 0 <= d < 2 ^ BitString.N b ->
    reachable (snd (BitString.set_int_config b (PyInt d))).

(** The cell of site [i]. *)
Definition bit (cfg : list Z) (i : Z) : Z := nth (Z.to_nat i) cfg 0.

Definition Qsum (l : list Q) : Q := fold_right Qplus 0%Q l.

(** The energy as the specification words it.  A pair [(j, s)] of site
    [i] contributes [+s] when the bits of [i] and [j] agree and [-s] when
    they differ; only the pairs with [j >= i] count. *)
Definition pair_term (cfg : list Z) (i : Z) (p : Z * Q) : Q :=
  if bit cfg i =? bit cfg (fst p) then snd p else (- snd p)%Q.

Definition site_term (cfg : list Z) (i : Z) (Ji : list (Z * Q)) : Q :=
  Qsum (map (pair_term cfg i) (filter (fun p => i <=? fst p) Ji)).

Definition coupling_energy (sites : list Z) (J : list (list (Z * Q)))
  (cfg : list Z) : Q :=
  Qsum (map (fun iJ => site_term cfg (fst iJ) (snd iJ)) (combine sites J)).

(** The field term: the sum over the sites of [mu_i * (2 * bit_i - 1)]. *)
Definition field_energy (mu : list Q) (cfg : list Z) : Q :=
  Qsum (map (fun mb => (fst mb * inject_Z (2 * snd mb - 1))%Q) (combine mu cfg)).

Definition energy_spec (h : IsingHamiltonian.t) (cfg : list Z) : Q :=
  (coupling_energy (range (IsingHamiltonian.N h)) (IsingHamiltonian.J h) cfg
   + field_energy (IsingHamiltonian.mu h) cfg)%Q.

(** A model as the data model describes it: one field per site and
    neighbour indices that are site indices. *)
Definition valid_neighbours (n : Z) (Ji : list (Z * Q)) : bool :=
  forallb (fun p => (0 <=? fst p) && (fst p <? n)) Ji.

Definition wf_model (h : IsingHamiltonian.t) : bool :=
  (len (IsingHamiltonian.mu h) =? IsingHamiltonian.N h)
  && forallb (valid_neighbours (IsingHamiltonian.N h)) (IsingHamiltonian.J h).

(** The thermal averages as the specification words them: every index
    [i] of [0 .. 2^N - 1] is decoded into the configuration whose bits are
    the binary digits of [i], [E_of] is its energy, [Z_of] its Boltzmann
    weight and [M_of] its net spin. *)
Definition Rsum (l : list R) : R := fold_right Rplus 0%R l.

Definition config_of (h : IsingHamiltonian.t) (i : Z) : list Z :=
  bits_msb (Z.to_nat (IsingHamiltonian.N h)) i.

Definition E_of (h : IsingHamiltonian.t) (i : Z) : R :=
  Q2R (energy_spec h (config_of h i)).

Definition Z_of (h : IsingHamiltonian.t) (T : R) (i : Z) : R :=
  exp (- E_of h i / T).

Definition M_of (h : IsingHamiltonian.t) (i : Z) : R :=
  IZR (fold_right Z.add 0 (map (fun b => 2 * b - 1) (config_of h i))).

Definition indices (h : IsingHamiltonian.t) : list Z :=
  range (2 ^ IsingHamiltonian.N h).

Definition partition (h : IsingHamiltonian.t) (T : R) : R :=
  Rsum (map (Z_of h T) (indices h)).

Definition averages_spec (h : IsingHamiltonian.t) (T : R) : R * R * R * R :=
  let Zs := partition h T in
  let E := (Rsum (map (fun i => E_of h i * Z_of h T i) (indices h)) / Zs)%R in
  let M := (Rsum (map (fun i => M_of h i * Z_of h T i) (indices h)) / Zs)%R in
  let EE :=
    (Rsum (map (fun i => E_of h i * E_of h i * Z_of h T i) (indices h)) / Zs)%R in
  let MM :=
    (Rsum (map (fun i => M_of h i * M_of h i * Z_of h T i) (indices h)) / Zs)%R in
  (E, M, ((EE - E * E) / (T * T))%R, ((MM - M * M) / T)%R).

(** The energy of the configuration of index [i]. *)
Definition energy_at (h : IsingHamiltonian.t) (i : Z) : Q :=
  energy_spec h (config_of h i).

(** What the loop of [get_lowest_energy_config] knows after some
    iterations: either no index has been recorded and [emin] is still the
    energy of index 0, or [xmin] is an index whose energy is [emin],
    strictly below that of index 0. *)
Definition best_so_far (h : IsingHamiltonian.t) (emin : Q) (xmin : pyobj)
  : Prop :=
  (xmin = PyNone /\ (emin == energy_at h 0)%Q) \/
  (exists j, xmin = PyInt j /\ 0 <= j < 2 ^ IsingHamiltonian.N h /\
             (emin == energy_at h j)%Q /\ (emin < energy_at h 0)%Q).

(** ** Models used as examples *)

(** The chain of the test suite: couplings 0-1 and 1-2 of strength 1,
    listed at the lower endpoint, and the field 1.2 on site 0. *)
Definition chain3 : IsingHamiltonian.t :=
  IsingHamiltonian.mk [[(1, 1%Q)]; [(2, 1%Q)]; []] [(12 # 10)%Q; 0%Q; 0%Q].

(** The same chain with couplings -1 and no field: the all-zero
    configuration, index 0, is a ground state. *)
Definition chain3_aligned : IsingHamiltonian.t :=
  IsingHamiltonian.mk [[(1, (-1)%Q)]; [(2, (-1)%Q)]; []] [0%Q; 0%Q; 0%Q].

(** One site in a field: index 0 is the only ground state. *)
Definition single_site : IsingHamiltonian.t :=
  IsingHamiltonian.mk [[]] [1%Q].

(** ** The remaining methods *)

(** [str] of an integer cell: its decimal digits, with a sign when
    negative. *)
Definition py_str (x : Z) : String.string :=
  DecimalString.NilZero.string_of_int (Z.to_int x).

(** [BitString.__str__] *)
Definition BitString_str (self : BitString.t) : String.string :=
  String.append
    (fold_left (fun string x => String.append (String.append string (py_str x)) " "%string)
       (BitString.config self) "[ "%string)
    "]"%string.

(** [enumerate(l)] *)
Definition enumerate {A : Type} (l : list A) : list (Z * A) :=
  combine (range (len l)) l.

(** The first magnitude that no longer converts to a float: halfway
    between the largest binary64 number and [2^1024]. *)
Definition float64_overflow : Z := 2 ^ 1024 - 2 ^ 970.

(** A number that converts to a [float64].  A Python float always does;
    a Python int does unless its magnitude reaches [float64_overflow]. *)
Definition in_float64 (v : Q) : bool :=
  Qlt_bool (inject_Z (- float64_overflow)) v
  && Qlt_bool v (inject_Z float64_overflow).

(** [a[i] = v] on a [float64] array: the index is resolved first, then
    the value is converted. *)
Definition setitem_float (a : list Q) (i : Z) (v : Q) : result (list Q) :=
  k <- norm_index (len a) i ;;
  if in_float64 v then Ok (list_set k v a) else Raise OverflowError.

(** What [IsingHamiltonian.__init__] leaves in the object: the arguments
    and the per-site arrays [nodes] and [js]. *)
Record IsingObject : Type := mk_object {
  fields : IsingHamiltonian.t;
  nodes : list (list Z);
  js : list (list Q)
}.

(** The inner loop of [__init__] over [enumerate(self.J[i])], writing
    into the two arrays appended last. *)
Fixpoint init_row (items : list (Z * (Z * Q))) (nd : list Z) (jr : list Q)
  : result (list Z * list Q) :=
  match items with
  | [] => Ok (nd, jr)
  | (jidx, j) :: rest =>
      nd' <- setitem nd jidx (fst j) ;;
      jr' <- setitem_float jr jidx (snd j) ;;
      init_row rest nd' jr'
  end.

(** [IsingHamiltonian.__init__] *)
Definition IsingHamiltonian_init (J : list (list (Z * Q))) (mu : list Q)
  : result IsingObject :=
  arrays <- for_each (range (len J))
              (fun i (st : list (list Z) * list (list Q)) =>
                 Ji <- getitem J i ;;
                 row <- init_row (enumerate Ji)
                          (repeat 0 (length Ji)) (repeat 0%Q (length Ji)) ;;
                 Ok (fst st ++ [fst row], snd st ++ [snd row]))
              ([], []) ;;
  Ok (mk_object (IsingHamiltonian.mk J mu) (fst arrays) (snd arrays)).

(** The pairs that [energy] looks at: those of site [i] whose neighbour
    index is at least [i]. *)
Definition upper_pairs (J : list (list (Z * Q))) : list (list (Z * Q)) :=
  map (fun iJ => filter (fun p => fst iJ <=? fst p) (snd iJ)) (enumerate J).

(** The configuration with every bit inverted. *)
Definition complement (cfg : list Z) : list Z := map (fun b => 1 - b) cfg.

(** The text [__str__] puts between the brackets: each cell followed by
    a blank. *)
Definition str_cells (l : list Z) : String.string :=
  fold_right
    (fun x rest => String.append (py_str x) (String.append " "%string rest))
    String.EmptyString l.


(** A model on which binary64 arithmetic is exact: every strength and
    every field is an integer and their absolute values add up to less
    than [2^53], so each partial sum that [energy] forms, in whatever
    order [np.dot] adds, is an integer below [2^53] and is not rounded. *)
Definition is_integer (q : Q) : bool := (Qden q =? 1)%positive.

Definition magnitude (l : list Q) : Z :=
  fold_right (fun q acc => Z.abs (Qnum q) + acc) 0 l.

Definition binary64_exact (h : IsingHamiltonian.t) : bool :=
  forallb (forallb (fun p => is_integer (snd p))) (IsingHamiltonian.J h)
  && forallb is_integer (IsingHamiltonian.mu h)
  && (magnitude (map snd (concat (IsingHamiltonian.J h)))
      + magnitude (IsingHamiltonian.mu h) <? 2 ^ 53).

(** The chain of the test suite with the integer field 1 on site 0. *)
Definition chain3_integer : IsingHamiltonian.t :=
  IsingHamiltonian.mk [[(1, 1%Q)]; [(2, 1%Q)]; []] [1%Q; 0%Q; 0%Q].

(** ** Indexing lemmas *)

Lemma range_seq (n : nat) : range (Z.of_nat n) = map Z.of_nat (seq 0 n).
Proof. unfold range. now rewrite Nat2Z.id. Qed.

Lemma norm_index_nat (n k : nat) :
  (k < n)%nat -> norm_index (Z.of_nat n) (Z.of_nat k) = Ok k.
Proof.
  intros Hk. unfold norm_index.
  destruct (Z.leb_spec 0 (Z.of_nat k)); [|lia].
  destruct (Z.ltb_spec (Z.of_nat k) (Z.of_nat n)); [|lia].
  simpl. now rewrite Nat2Z.id.
Qed.

Lemma norm_index_past (n k : nat) :
  (n <= k)%nat -> norm_index (Z.of_nat n) (Z.of_nat k) = Raise IndexError.
Proof.
  intros Hk. unfold norm_index.
  destruct (Z.ltb_spec (Z.of_nat k) (Z.of_nat n)); [lia|].
  destruct (Z.ltb_spec (Z.of_nat k) 0); [lia|].
  now rewrite !andb_false_r.
Qed.

Lemma getitem_app {A : Type} (pre post : list A) (v : A) :
  getitem (pre ++ v :: post) (Z.of_nat (length pre)) = Ok v.
Proof.
  unfold getitem, len. rewrite norm_index_nat.
  - simpl. rewrite nth_error_app2 by lia. now rewrite Nat.sub_diag.
  - rewrite length_app. simpl. lia.
Qed.

Lemma getitem_end {A : Type} (a : list A) :
  getitem a (Z.of_nat (length a)) = Raise IndexError.
Proof. unfold getitem, len. now rewrite norm_index_past by lia. Qed.

Lemma list_set_app {A : Type} (pre post : list A) (u v : A) :
  list_set (length pre) v (pre ++ u :: post) = pre ++ v :: post.
Proof. induction pre as [|h pre IH]; simpl; [reflexivity | now rewrite IH]. Qed.

Lemma setitem_app (pre post : list Z) (u v : Z) :
  in_int64 v = true ->
  setitem (pre ++ u :: post) (Z.of_nat (length pre)) v = Ok (pre ++ v :: post).
Proof.
  intros Hv. unfold setitem, len. rewrite norm_index_nat.
  - simpl. rewrite Hv. now rewrite list_set_app.
  - rewrite length_app. simpl. lia.
Qed.

Lemma app_cons_assoc {A : Type} (pre post : list A) (v : A) :
  pre ++ v :: post = (pre ++ [v]) ++ post.
Proof. now rewrite <- app_assoc. Qed.

Lemma length_snoc {A : Type} (pre : list A) (v : A) :
  length (pre ++ [v]) = S (length pre).
Proof. rewrite length_app. simpl. lia. Qed.

(** ** Binary representations *)

Lemma bits_msb_length (k : nat) (d : Z) : length (bits_msb k d) = k.
Proof. induction k; simpl; congruence. Qed.

Lemma bits_msb_zero (k : nat) : bits_msb k 0 = repeat 0 k.
Proof. induction k; simpl; [reflexivity|]. now rewrite Z.bits_0, IHk. Qed.

Lemma bits_msb_mod (k : nat) (d : Z) :
  bits_msb k (d mod 2 ^ Z.of_nat k) = bits_msb k d.
Proof.
  assert (G : forall j m, (j <= m)%nat ->
            bits_msb j (d mod 2 ^ Z.of_nat m) = bits_msb j d).
  { induction j as [|j IH]; intros m Hm; simpl; [reflexivity|].
    rewrite Z.mod_pow2_bits_low by lia. now rewrite IH by lia. }
  now apply G.
Qed.

Lemma bits_msb_sub (k : nat) (d : Z) :
  bits_msb k (d - 2 ^ Z.of_nat k) = bits_msb k d.
Proof.
  rewrite <- (bits_msb_mod k (d - _)), <- (bits_msb_mod k d).
  f_equal.
  replace (d - 2 ^ Z.of_nat k) with (d + (-1) * 2 ^ Z.of_nat k) by ring.
  now rewrite Z.mod_add by lia.
Qed.

Lemma bits_msb_forall (k : nat) (d : Z) : forallb is_bit (bits_msb k d) = true.
Proof.
  induction k; simpl; [reflexivity|]. rewrite IHk.
  now destruct (Z.testbit d (Z.of_nat k)).
Qed.

Lemma bits_msb_nth (k : nat) (d : Z) (x : nat) :
  (x < k)%nat ->
  nth x (bits_msb k d) 0 = Z.b2z (Z.testbit d (Z.of_nat (k - 1 - x))).
Proof.
  revert x. induction k as [|k IH]; intros x Hx; [lia|].
  destruct x as [|x]; cbn [bits_msb nth].
  - do 3 f_equal. lia.
  - rewrite IH by lia. do 3 f_equal. lia.
Qed.

Lemma testbit_top (k d : Z) :
  0 <= k -> 0 <= d < 2 ^ (k + 1) -> Z.testbit d k = (2 ^ k <=? d).
Proof.
  intros Hk Hd.
  assert (Hp : 2 ^ (k + 1) = 2 * 2 ^ k) by (rewrite Z.pow_add_r, Z.pow_1_r by lia; ring).
  destruct (Z.leb_spec (2 ^ k) d) as [Hle|Hlt].
  - apply Z.testbit_true; [lia|].
    replace (d / 2 ^ k) with 1; [reflexivity|].
    apply Z.div_unique with (r := d - 2 ^ k); lia.
  - apply Z.testbit_false; [lia|].
    now rewrite Z.div_small by lia.
Qed.

Lemma mod_pow2_succ (k : nat) (d : Z) :
  d mod 2 ^ Z.of_nat (S k)
  = d mod 2 ^ Z.of_nat k + 2 ^ Z.of_nat k * Z.b2z (Z.testbit d (Z.of_nat k)).
Proof.
  rewrite Nat2Z.inj_succ, Z.pow_succ_r by lia.
  rewrite Z.testbit_spec' by lia.
  rewrite (Z.mul_comm 2), Z.rem_mul_r by lia.
  reflexivity.
Qed.

(** ** set_int_config and int *)

Section SetIntConfig.
Context {M : Math}.

(** The decoding loop from position [length pre] on: the remaining
    [k] cells receive the [k]-bit representation of the remainder. *)
Lemma set_int_config_loop_bits (n : nat) :
  log2_exact_below (Z.of_nat n) ->
  forall (k : nat) (pre : list Z) (d : Z),
    (length pre + k = n)%nat -> 0 <= d < 2 ^ Z.of_nat k ->
    BitString.set_int_config_loop (Z.of_nat n)
      (map Z.of_nat (seq (length pre) k)) (pre ++ repeat 0 k) (PyInt d)
    = Ok (pre ++ bits_msb k d).
Proof.
  intros Hex. induction k as [|k IH]; intros pre d Hn Hd.
  - reflexivity.
  - cbn [seq map BitString.set_int_config_loop].
    destruct (Z.eqb_spec d 0) as [->|Hd0].
    { now rewrite bits_msb_zero. }
    destruct (Z.ltb_spec d 0); [lia|].
    replace (Z.of_nat n - Z.of_nat (length pre) - 1) with (Z.of_nat k) by lia.
    assert (Hpow : 2 ^ Z.of_nat k <= 2 ^ Z.of_nat n)
      by (apply Z.pow_le_mono_r; lia).
    assert (Hpow' : 2 ^ Z.of_nat (S k) <= 2 ^ Z.of_nat n)
      by (apply Z.pow_le_mono_r; lia).
    rewrite Hex by lia.
    assert (Hs : 2 ^ Z.of_nat (S k) = 2 * 2 ^ Z.of_nat k)
      by (rewrite Nat2Z.inj_succ, Z.pow_succ_r by lia; ring).
    cbn [bits_msb repeat].
    rewrite testbit_top by (rewrite ?Z.add_1_r, <- ?Nat2Z.inj_succ; lia).
    destruct (Z.leb_spec (2 ^ Z.of_nat k) d) as [Hle|Hlt].
    + rewrite setitem_app by reflexivity. cbn [bind].
      rewrite (app_cons_assoc pre (repeat 0 k)).
      rewrite <- (length_snoc pre 1).
      rewrite IH by (rewrite ?length_snoc; lia).
      rewrite bits_msb_sub. cbn [Z.b2z]. now rewrite <- app_cons_assoc.
    + rewrite (app_cons_assoc pre (repeat 0 k)).
      rewrite <- (length_snoc pre 0).
      rewrite IH by (rewrite ?length_snoc; lia).
      cbn [Z.b2z]. now rewrite <- app_cons_assoc.
Qed.

Lemma set_int_config_bits (self : BitString.t) (d : Z) :
  log2_exact_below (BitString.N self) ->
  0 <= d < 2 ^ BitString.N self ->
  BitString.set_int_config self (PyInt d)
  = (Ok tt,
     BitString.mk (BitString.N self)
       (bits_msb (Z.to_nat (BitString.N self)) d)).
Proof.
  intros Hex Hd.
  assert (Hn : 0 <= BitString.N self).
  { destruct (Z.le_gt_cases 0 (BitString.N self)) as [|Hneg]; [assumption|].
    rewrite Z.pow_neg_r in Hd by assumption. lia. }
  unfold BitString.set_int_config, BitString.init.
  destruct (Z.ltb_spec (BitString.N self) 0); [lia|].
  cbn [BitString.N BitString.config]. unfold range.
  pose proof (set_int_config_loop_bits (Z.to_nat (BitString.N self))) as L.
  rewrite Z2Nat.id in L by assumption.
  specialize (L Hex (Z.to_nat (BitString.N self)) [] d).
  cbn [length app] in L. rewrite L; [reflexivity | lia |].
  now rewrite Z2Nat.id.
Qed.

End SetIntConfig.

(** The encoding loop from position [length pre] on adds the value of the
    remaining [k] cells. *)
Lemma int_loop_bits (n : nat) (d : Z) :
  forall (k : nat) (pre : list Z) (acc : Z),
    (length pre + k = n)%nat ->
    for_each (map Z.of_nat (seq (length pre) k))
      (fun x dec =>
         v <- getitem (pre ++ bits_msb k d) x ;;
         Ok (if v =? 1 then dec + 2 ^ (Z.of_nat n - x - 1) else dec))
      acc
    = Ok (acc + d mod 2 ^ Z.of_nat k).
Proof.
  induction k as [|k IH]; intros pre acc Hn.
  - cbn. now rewrite Z.mod_1_r, Z.add_0_r.
  - cbn [seq map for_each bits_msb].
    rewrite getitem_app. cbn [bind].
    replace (Z.of_nat n - Z.of_nat (length pre) - 1) with (Z.of_nat k) by lia.
    rewrite (app_cons_assoc pre (bits_msb k d)).
    rewrite <- (length_snoc pre (Z.b2z (Z.testbit d (Z.of_nat k)))).
    rewrite IH by (rewrite length_snoc; lia).
    rewrite mod_pow2_succ.
    destruct (Z.testbit d (Z.of_nat k));
      [change (Z.b2z true =? 1) with true | change (Z.b2z false =? 1) with false];
      cbv iota; cbn [Z.b2z]; f_equal; lia.
Qed.

Lemma int_bits (n : Z) (d : Z) :
  0 <= n -> 0 <= d < 2 ^ n ->
  BitString.int (BitString.mk n (bits_msb (Z.to_nat n) d)) = Ok d.
Proof.
  intros Hn Hd. unfold BitString.int. cbn [BitString.N BitString.config].
  unfold range.
  pose proof (int_loop_bits (Z.to_nat n) d (Z.to_nat n) [] 0) as L.
  cbn [length app] in L. rewrite Z2Nat.id in L by assumption.
  rewrite L by lia. now rewrite Z.mod_small by lia.
Qed.

Example test_bitstring_set_int_config :
  @BitString.set_int_config ideal_math (BitString.mk 8 (repeat 0 8%nat))
    (PyInt 97)
  = (Ok tt, BitString.mk 8 [0; 1; 1; 0; 0; 0; 0; 1]).
Proof. reflexivity. Qed.

Example test_bitstring_int :
  BitString.int (BitString.mk 8 [0; 1; 1; 0; 0; 0; 0; 1]) = Ok 97.
Proof. reflexivity. Qed.

Lemma ideal_math_exact (B : Z) : @log2_exact_below ideal_math B.
Proof. intros dec k _ _. reflexivity. Qed.

Lemma rounding_math_exact_below_49 : @log2_exact_below rounding_math 49.
Proof.
  intros dec k _ Hk. cbn.
  destruct (Z.eqb_spec k 49); [lia|]. now rewrite andb_false_r, orb_false_r.
Qed.

Lemma ideal_math_clear : @log2_ge_clear ideal_math.
Proof.
  intros dec k Hk Hd. cbn. apply Z.leb_le.
  assert (2 ^ k <= 2 ^ (k + 1)) by (apply Z.pow_le_mono_r; lia). lia.
Qed.

(** X20.  Where the comparison on [math.log2] is exact below [2^N], decoding
    [d] with [0 <= d < 2^N] succeeds and [int] gives back exactly [d]; the
    cell at position [x] holds bit [N - 1 - x] of [d], so position 0 is the
    most significant bit. *)
Lemma roundtrip_when_log2_exact {M : Math} (self : BitString.t) (d : Z) :
  log2_exact_below (BitString.N self) ->
  0 <= d < 2 ^ BitString.N self ->
  let r := BitString.set_int_config self (PyInt d) in
  fst r = Ok tt /\
  BitString.int (snd r) = Ok d /\
  BitString.N (snd r) = BitString.N self /\
  len (BitString.config (snd r)) = BitString.N self /\
  forall x, 0 <= x < BitString.N self ->
    nth (Z.to_nat x) (BitString.config (snd r)) 0
    = Z.b2z (Z.testbit d (BitString.N self - 1 - x)).
Proof.
  intros Hex Hd r. subst r.
  assert (Hn : 0 <= BitString.N self).
  { destruct (Z.le_gt_cases 0 (BitString.N self)) as [|Hneg]; [assumption|].
    rewrite Z.pow_neg_r in Hd by assumption. lia. }
  rewrite set_int_config_bits by assumption.
  cbn [fst snd BitString.N BitString.config].
  repeat split.
  - now apply int_bits.
  - unfold len. rewrite bits_msb_length. now apply Z2Nat.id.
  - intros x Hx. rewrite bits_msb_nth by lia. do 2 f_equal. lia.
Qed.

(** X21.  The outcome of [set_int_config] and, when it succeeds, the bit
    string it leaves depend on [N] and [d] only, not on what the receiver
    held; this needs nothing of [math.log2]. *)
Lemma set_int_config_reads_N_only {M : Math} (a b : BitString.t) (dec : pyobj) :
  BitString.N a = BitString.N b ->
  fst (BitString.set_int_config a dec) = fst (BitString.set_int_config b dec) /\
  (fst (BitString.set_int_config a dec) = Ok tt ->
   snd (BitString.set_int_config a dec) = snd (BitString.set_int_config b dec)).
Proof.
  intros Hab. unfold BitString.set_int_config. rewrite Hab.
  destruct (BitString.init (BitString.N b)) as [o|e]; cbn [fst snd].
  - destruct (BitString.set_int_config_loop _ _ _ _); cbn [fst snd];
      split; [reflexivity | reflexivity | reflexivity | discriminate].
  - split; [reflexivity | discriminate].
Qed.

(** ** The rounding of math.log2 *)

(** On 50 cells the first comparison for [d = 2^49 - 1] is
    [math.log2(d) >= 49].  Where it comes out true, the first cell of the
    scratch array is set, the remainder becomes [-1] and the second
    iteration calls [math.log2(-1)]. *)
Lemma set_int_config_rounded_up {M : Math} (self : BitString.t) :
  BitString.N self = 50 ->
  log2_ge (2 ^ 49 - 1) 49 = true ->
  BitString.set_int_config self (PyInt (2 ^ 49 - 1)) = (Raise ValueError, self).
Proof.
  intros HN Hlog. unfold BitString.set_int_config, BitString.init.
  rewrite HN. cbn [Z.ltb Z.compare BitString.N BitString.config].
  unfold range. change (Z.to_nat 50) with 50%nat.
  change (seq 0 50) with (0 :: 1 :: seq 2 48)%nat. cbn [map].
  generalize (map Z.of_nat (seq 2 48)). intros rest.
  change (repeat 0 50) with (0 :: repeat 0 49).
  generalize (repeat 0 49). intros zeros.
  cbn [BitString.set_int_config_loop].
  change (2 ^ 49 - 1 =? 0) with false.
  change (2 ^ 49 - 1 <? 0) with false.
  change (50 - Z.of_nat 0 - 1) with 49. cbv iota.
  rewrite Hlog.
  assert (Hset : setitem (0 :: zeros) (Z.of_nat 0) 1 = Ok (1 :: zeros))
    by apply (setitem_app [] zeros 0 1 eq_refl).
  rewrite Hset. cbn [bind].
  change (2 ^ 49 - 1 - 2 ^ 49) with (-1).
  reflexivity.
Qed.

(** C4.  [int] after [set_int_config(d)] does not give back [d] for every
    [N] and every [0 <= d < 2^N]: on 50 cells, [d = 2^49 - 1] is in range,
    and as soon as [math.log2(2**49 - 1) >= 49] is true (binary64 rounds
    that logarithm to 49.0) the call raises [ValueError] and leaves the
    receiver as it was, so there is nothing to read back. *)
Theorem set_int_config_roundtrip_fails_on_rounding {M : Math} (self : BitString.t) :
  BitString.N self = 50 ->
  log2_ge (2 ^ 49 - 1) 49 = true ->
  0 <= 2 ^ 49 - 1 < 2 ^ BitString.N self /\
  BitString.set_int_config self (PyInt (2 ^ 49 - 1)) = (Raise ValueError, self).
Proof.
  intros HN Hlog. split.
  - rewrite HN. split; [discriminate | reflexivity].
  - now apply set_int_config_rounded_up.
Qed.

Lemma set_int_config_roundtrip_fails_on_rounding_witness :
  0 <= 2 ^ 49 - 1 < 2 ^ 50 /\
  @BitString.set_int_config rounding_math
    (BitString.mk 50 (repeat 0 50%nat)) (PyInt (2 ^ 49 - 1))
  = (Raise ValueError, BitString.mk 50 (repeat 0 50%nat)).
Proof.
  apply (@set_int_config_roundtrip_fails_on_rounding rounding_math
           (BitString.mk 50 (repeat 0 50%nat)));
    reflexivity.
Defined.

(** C10.  Two bit strings of length [N] are not always left identical by
    [set_int_config(d)] with [0 <= d < 2^N]: on 50 cells and for
    [d = 2^49 - 1], as soon as [math.log2(2**49 - 1) >= 49] is true, the
    call raises on both and each keeps the cells it had, so receivers that
    differed before still differ. *)
Theorem set_int_config_keeps_receivers_on_rounding {M : Math} (a b : BitString.t) :
  BitString.N a = 50 -> BitString.N b = 50 ->
  log2_ge (2 ^ 49 - 1) 49 = true ->
  BitString.config a <> BitString.config b ->
  fst (BitString.set_int_config a (PyInt (2 ^ 49 - 1))) = Raise ValueError /\
  fst (BitString.set_int_config b (PyInt (2 ^ 49 - 1))) = Raise ValueError /\
  BitString.config (snd (BitString.set_int_config a (PyInt (2 ^ 49 - 1))))
  <> BitString.config (snd (BitString.set_int_config b (PyInt (2 ^ 49 - 1)))).
Proof.
  intros Ha Hb Hlog Hne.
  rewrite (set_int_config_rounded_up a Ha Hlog).
  rewrite (set_int_config_rounded_up b Hb Hlog).
  cbn [fst snd]. repeat split. exact Hne.
Qed.

Lemma set_int_config_keeps_receivers_on_rounding_witness :
  BitString.config
    (snd (@BitString.set_int_config rounding_math
            (BitString.mk 50 (repeat 0 50%nat)) (PyInt (2 ^ 49 - 1))))
  <> BitString.config
       (snd (@BitString.set_int_config rounding_math
               (BitString.mk 50 (repeat 1 50%nat)) (PyInt (2 ^ 49 - 1)))).
Proof.
  apply (@set_int_config_keeps_receivers_on_rounding rounding_math
           (BitString.mk 50 (repeat 0 50%nat))
           (BitString.mk 50 (repeat 1 50%nat))).
  - reflexivity.
  - reflexivity.
  - reflexivity.
  - discriminate.
Defined.

(** ** set_int_config outside its domain *)

Section SetIntConfigDomain.
Context {M : Math}.

Lemma set_int_config_loop_ones (n : nat) :
  log2_ge_clear ->
  forall (k : nat) (pre : list Z) (d : Z),
    (length pre + k = n)%nat -> 2 ^ Z.of_nat k <= d ->
    BitString.set_int_config_loop (Z.of_nat n)
      (map Z.of_nat (seq (length pre) k)) (pre ++ repeat 0 k) (PyInt d)
    = Ok (pre ++ repeat 1 k).
Proof.
  intros Hcl. induction k as [|k IH]; intros pre d Hn Hd.
  - reflexivity.
  - cbn [seq map BitString.set_int_config_loop repeat].
    assert (Hs : 2 ^ Z.of_nat (S k) = 2 * 2 ^ Z.of_nat k)
      by (rewrite Nat2Z.inj_succ, Z.pow_succ_r by lia; ring).
    assert (Hp : 0 < 2 ^ Z.of_nat k) by (apply Z.pow_pos_nonneg; lia).
    destruct (Z.eqb_spec d 0); [lia|].
    destruct (Z.ltb_spec d 0); [lia|].
    replace (Z.of_nat n - Z.of_nat (length pre) - 1) with (Z.of_nat k) by lia.
    rewrite Hcl by (rewrite ?Z.add_1_r, <- ?Nat2Z.inj_succ; lia).
    rewrite setitem_app by reflexivity. cbn [bind].
    rewrite (app_cons_assoc pre (repeat 0 k)).
    rewrite <- (length_snoc pre 1).
    rewrite IH by (rewrite ?length_snoc; lia).
    now rewrite <- app_cons_assoc.
Qed.

End SetIntConfigDomain.

(** C5, as the program behaves.  On a bit string of length [N >= 1] a
    negative [d] makes [set_int_config] raise ([ValueError], from
    [math.log2]) and the receiver is left exactly as it was; an integer
    [d >= 2^N] is not refused: the call returns normally and every one of
    the [N] cells is 1. *)
Theorem set_int_config_out_of_range {M : Math} (self : BitString.t) (d : Z) :
  0 < BitString.N self ->
  log2_ge_clear ->
  (d < 0 ->
   BitString.set_int_config self (PyInt d) = (Raise ValueError, self)) /\
  (2 ^ BitString.N self <= d ->
   BitString.set_int_config self (PyInt d)
   = (Ok tt,
      BitString.mk (BitString.N self)
        (repeat 1 (Z.to_nat (BitString.N self))))).
Proof.
  intros Hn Hcl. unfold BitString.set_int_config, BitString.init.
  destruct (Z.ltb_spec (BitString.N self) 0); [lia|].
  cbn [BitString.N BitString.config]. unfold range. split; intros Hd.
  - destruct (Z.to_nat (BitString.N self)) as [|m] eqn:Em; [lia|].
    cbn [seq map repeat BitString.set_int_config_loop].
    destruct (Z.eqb_spec d 0); [lia|].
    destruct (Z.ltb_spec d 0); [reflexivity | lia].
  - pose proof (set_int_config_loop_ones (Z.to_nat (BitString.N self))) as L.
    rewrite Z2Nat.id in L by lia.
    specialize (L Hcl (Z.to_nat (BitString.N self)) [] d).
    cbn [length app] in L. rewrite L; [reflexivity | lia |].
    now rewrite Z2Nat.id by lia.
Qed.

Lemma set_int_config_out_of_range_witness :
  0 < 2 /\ -1 < 0 /\
  @BitString.set_int_config ideal_math (BitString.mk 2 [0; 1]) (PyInt (-1))
  = (Raise ValueError, BitString.mk 2 [0; 1]).
Proof.
  split; [lia|]. split; [lia|].
  apply (@set_int_config_out_of_range ideal_math (BitString.mk 2 [0; 1]) (-1)).
  - cbn. lia.
  - intros dec k Hk Hd. cbn. apply Z.leb_le.
    assert (2 ^ k <= 2 ^ (k + 1)) by (apply Z.pow_le_mono_r; lia). lia.
  - lia.
Defined.

(** C5, as stated, fails: 4 is not below [2^2], yet decoding it into a bit
    string of length 2 raises nothing and leaves the bits [1, 1]. *)
Lemma set_int_config_accepts_large :
  2 ^ 2 <= 4 /\
  @BitString.set_int_config ideal_math (BitString.mk 2 [0; 0]) (PyInt 4)
  = (Ok tt, BitString.mk 2 [1; 1]) /\
  ~ (exists e,
       fst (@BitString.set_int_config ideal_math (BitString.mk 2 [0; 0])
              (PyInt 4)) = Raise e).
Proof.
  split; [cbn; lia|]. split; [reflexivity|].
  intros [e He]. discriminate He.
Qed.

(** ** Equality of bit strings *)

Lemma eq_loop_prefix :
  forall (sa sb pa pb : list Z),
    length pa = length pb ->
    BitString.eq_loop (map Z.of_nat (seq (length pa) (length sa)))
      (pa ++ sa) (pb ++ sb) = Ok true
    <-> sa = firstn (length sa) sb.
Proof.
  induction sa as [|u sa IH]; intros sb pa pb Hp.
  - cbn. tauto.
  - cbn [length seq map BitString.eq_loop firstn].
    rewrite getitem_app. cbn [bind].
    destruct sb as [|v sb].
    + rewrite Hp, app_nil_r, getitem_end. cbn [bind firstn].
      split; discriminate.
    + rewrite Hp, getitem_app. cbn [bind firstn].
      destruct (Z.eqb_spec u v) as [->|Huv]; cbn [negb].
      * rewrite (app_cons_assoc pa sa), (app_cons_assoc pb sb).
        rewrite <- Hp, <- (length_snoc pa v).
        rewrite IH by (rewrite !length_snoc; lia).
        split; [now intros <- | now intros [= E]].
      * split; [discriminate | intros [= E _]; contradiction].
Qed.

(** C6, as the program behaves.  For a bit string [a] whose array has
    [N] cells, [a == b] is true exactly when [a]'s cells are the first [N]
    cells of [b]; for operands of one length this is identity of the bit
    sequences, and a longer right operand that extends [a] compares
    equal. *)
Theorem eq_true_iff_prefix (a b : BitString.t) :
  len (BitString.config a) = BitString.N a ->
  (BitString.eq a b = Ok true
   <-> BitString.config a
       = firstn (Z.to_nat (BitString.N a)) (BitString.config b)) /\
  (len (BitString.config b) = BitString.N a ->
   (BitString.eq a b = Ok true <-> BitString.config a = BitString.config b)).
Proof.
  intros Ha. unfold len in Ha.
  assert (Hfirst : BitString.eq a b = Ok true
                   <-> BitString.config a
                       = firstn (Z.to_nat (BitString.N a)) (BitString.config b)).
  { unfold BitString.eq, range. rewrite <- Ha, Nat2Z.id.
    exact (eq_loop_prefix (BitString.config a) (BitString.config b) [] []
             eq_refl). }
  split; [exact Hfirst|].
  intros Hb. rewrite Hfirst. unfold len in Hb.
  rewrite <- Hb, Nat2Z.id, firstn_all. tauto.
Qed.

Lemma eq_true_iff_prefix_witness :
  (BitString.eq (BitString.mk 4 [1; 0; 1; 0]) (BitString.mk 4 [1; 1; 1; 0])
   = Ok true
   <-> [1; 0; 1; 0] = firstn (Z.to_nat 4) [1; 1; 1; 0]) /\
  (len [1; 1; 1; 0] = 4 ->
   (BitString.eq (BitString.mk 4 [1; 0; 1; 0]) (BitString.mk 4 [1; 1; 1; 0])
    = Ok true
    <-> [1; 0; 1; 0] = [1; 1; 1; 0])).
Proof.
  apply (eq_true_iff_prefix (BitString.mk 4 [1; 0; 1; 0])
           (BitString.mk 4 [1; 1; 1; 0])).
  reflexivity.
Defined.

(** C6, as stated, fails: a bit string of length 2 compares equal to one
    of length 3 that starts with the same two bits. *)
Lemma eq_ignores_longer_operand :
  BitString.eq (BitString.mk 2 [1; 0]) (BitString.mk 3 [1; 0; 1]) = Ok true /\
  BitString.N (BitString.mk 2 [1; 0]) <> BitString.N (BitString.mk 3 [1; 0; 1]) /\
  BitString.config (BitString.mk 2 [1; 0])
  <> BitString.config (BitString.mk 3 [1; 0; 1]).
Proof. repeat split; discriminate. Qed.

Example test_bitstring_equality :
  BitString.eq (BitString.mk 4 [1; 0; 1; 0]) (BitString.mk 4 [1; 0; 1; 0])
  = Ok true /\
  BitString.eq (BitString.mk 4 [1; 0; 1; 0]) (BitString.mk 4 [1; 1; 1; 0])
  = Ok false.
Proof. split; reflexivity. Qed.

(** ** flip_site *)

Lemma nth_error_split {A : Type} (l : list A) (k : nat) :
  (k < length l)%nat ->
  exists pre v post, l = pre ++ v :: post /\ length pre = k.
Proof.
  intros Hk. destruct (nth_error l k) as [v|] eqn:E.
  - destruct (nth_error_split l k E) as (pre & post & -> & Hl).
    now exists pre, v, post.
  - apply nth_error_None in E. lia.
Qed.

Lemma flip_site_at (self : BitString.t) (i : Z) (k : nat) :
  norm_index (len (BitString.config self)) i = Ok k ->
  (k < length (BitString.config self))%nat ->
  BitString.flip_site self i
  = (Ok tt,
     BitString.mk (BitString.N self)
       (list_set k (if nth k (BitString.config self) 0 =? 1 then 0 else 1)
          (BitString.config self))).
Proof.
  intros Hi Hk. unfold BitString.flip_site, getitem, setitem.
  rewrite Hi. cbn [bind].
  destruct (nth_error (BitString.config self) k) as [v|] eqn:E.
  - rewrite (nth_error_nth _ _ 0 E).
    now destruct (v =? 1).
  - apply nth_error_None in E. lia.
Qed.

Lemma flip_site_shape (self : BitString.t) (i : Z) :
  BitString.flip_site self i = (Raise IndexError, self) \/
  exists k,
    BitString.flip_site self i
    = (Ok tt,
       BitString.mk (BitString.N self)
         (list_set k (if nth k (BitString.config self) 0 =? 1 then 0 else 1)
            (BitString.config self))).
Proof.
  destruct (norm_index (len (BitString.config self)) i) as [k|e] eqn:E.
  - right. exists k. apply flip_site_at; [assumption|].
    unfold norm_index, len in E.
    destruct ((0 <=? i) && (i <? Z.of_nat (length (BitString.config self))))
      eqn:E1.
    + injection E as <-. apply andb_prop in E1 as [H1 H2].
      apply Z.leb_le in H1. apply Z.ltb_lt in H2. lia.
    + destruct ((- Z.of_nat (length (BitString.config self)) <=? i) && (i <? 0))
        eqn:E2; [|discriminate].
      injection E as <-. apply andb_prop in E2 as [H1 H2].
      apply Z.leb_le in H1. apply Z.ltb_lt in H2. lia.
  - left. unfold BitString.flip_site, getitem. rewrite E. cbn [bind].
    unfold norm_index in E.
    destruct ((0 <=? i) && (i <? len (BitString.config self)));
      [discriminate|].
    destruct ((- len (BitString.config self) <=? i) && (i <? 0));
      [discriminate|].
    now injection E as <-.
Qed.

(** C7, as the program behaves.  With [n] the number of cells,
    [flip_site(i)] toggles cell [i] and returns nothing when [0 <= i < n];
    for [-n <= i < 0] it toggles cell [n + i] instead of failing; for every
    other [i] it raises [IndexError] and leaves the bit string untouched. *)
Theorem flip_site_cases (self : BitString.t) (i : Z) :
  let c := BitString.config self in
  let toggled k :=
    BitString.mk (BitString.N self)
      (list_set k (if nth k c 0 =? 1 then 0 else 1) c) in
  (0 <= i < len c ->
   BitString.flip_site self i = (Ok tt, toggled (Z.to_nat i))) /\
  (- len c <= i < 0 ->
   BitString.flip_site self i = (Ok tt, toggled (Z.to_nat (len c + i)))) /\
  (i < - len c \/ len c <= i ->
   BitString.flip_site self i = (Raise IndexError, self)).
Proof.
  intros c toggled. subst toggled c. unfold len. repeat split; intros Hi.
  - apply flip_site_at; [|lia]. unfold norm_index, len.
    destruct (Z.leb_spec 0 i); [|lia].
    destruct (Z.ltb_spec i (Z.of_nat (length (BitString.config self))));
      [reflexivity | lia].
  - apply flip_site_at; [|lia]. unfold norm_index, len.
    destruct (Z.leb_spec 0 i); [lia|]. cbn [andb].
    destruct (Z.leb_spec (- Z.of_nat (length (BitString.config self))) i);
      [|lia].
    destruct (Z.ltb_spec i 0); [reflexivity | lia].
  - unfold BitString.flip_site, getitem, norm_index, len.
    destruct (Z.leb_spec 0 i);
      destruct (Z.ltb_spec i (Z.of_nat (length (BitString.config self))));
      destruct (Z.leb_spec (- Z.of_nat (length (BitString.config self))) i);
      destruct (Z.ltb_spec i 0); try lia; reflexivity.
Qed.

(** C7, as stated, fails: on a bit string of length 2 the index -1 is
    outside [0, 2), yet [flip_site(-1)] raises nothing and toggles the last
    bit. *)
Lemma flip_site_accepts_negative_index :
  BitString.flip_site (BitString.mk 2 [0; 0]) (-1)
  = (Ok tt, BitString.mk 2 [0; 1]) /\
  ~ (exists e,
       fst (BitString.flip_site (BitString.mk 2 [0; 0]) (-1)) = Raise e).
Proof.
  split; [reflexivity|]. intros [e He]. discriminate He.
Qed.

Lemma flip_site_cases_witness :
  0 <= 1 < len [0; 0] /\
  BitString.flip_site (BitString.mk 2 [0; 0]) 1
  = (Ok tt, BitString.mk 2 [0; 1]).
Proof.
  split; [cbn; lia|].
  apply (flip_site_cases (BitString.mk 2 [0; 0]) 1). cbn. lia.
Defined.

Example test_bitstring_flip_site :
  let b := BitString.mk 8 [0; 1; 1; 0; 0; 0; 0; 1] in
  snd (BitString.flip_site (snd (BitString.flip_site b 7)) 6)
  = BitString.mk 8 [0; 1; 1; 0; 0; 0; 1; 0].
Proof. reflexivity. Qed.

(** ** The dimension guard of energy *)

(** C8.  When the number of cells of the bit string differs from the
    number of sites of the model, [energy] does not fail with an error of
    the dimension-mismatch kind: its guard calls the name [error], which is
    bound nowhere, so what every such call raises is [NameError].  It
    raises at the guard, its first statement, and returns no energy. *)
Theorem energy_dimension_mismatch (self : IsingHamiltonian.t) (c : BitString.t) :
  len (BitString.config c) <> IsingHamiltonian.N self ->
  IsingHamiltonian.energy self c = Raise NameError /\
  forall e, IsingHamiltonian.energy self c <> Ok e.
Proof.
  intros Hne. unfold IsingHamiltonian.energy, IsingHamiltonian.N in *.
  destruct (Z.eqb_spec (len (BitString.config c))
              (len (IsingHamiltonian.J self))); [contradiction|].
  cbn [negb]. split; [reflexivity | discriminate].
Qed.

Lemma energy_dimension_mismatch_witness :
  IsingHamiltonian.energy
    (IsingHamiltonian.mk [[(1, 1%Q)]; [(2, 1%Q)]; []] [0%Q; 0%Q; 0%Q])
    (BitString.mk 2 [0; 1])
  = Raise NameError.
Proof.
  apply (energy_dimension_mismatch
           (IsingHamiltonian.mk [[(1, 1%Q)]; [(2, 1%Q)]; []] [0%Q; 0%Q; 0%Q])
           (BitString.mk 2 [0; 1])).
  cbn. lia.
Defined.

(** ** Counting bits *)

Lemma list_set_length {A : Type} (k : nat) (v : A) (l : list A) :
  length (list_set k v l) = length l.
Proof.
  revert k. induction l as [|h l IH]; intros [|k]; simpl; auto.
Qed.

Lemma list_set_forallb {A : Type} (p : A -> bool) (k : nat) (v : A) (l : list A) :
  p v = true -> forallb p l = true -> forallb p (list_set k v l) = true.
Proof.
  intros Hv. revert k. induction l as [|h l IH]; intros [|k]; simpl; auto.
  - intros H. apply andb_prop in H as [_ H]. now rewrite Hv.
  - intros H. apply andb_prop in H as [Hh H]. now rewrite Hh, IH.
Qed.

Lemma setitem_inv (a : list Z) (i v : Z) (a' : list Z) :
  setitem a i v = Ok a' -> exists k, a' = list_set k v a.
Proof.
  unfold setitem. destruct (norm_index (len a) i) as [k|e]; cbn [bind].
  - destruct (in_int64 v); [|discriminate]. intros [= <-]. now exists k.
  - discriminate.
Qed.

Lemma wf_bits_intro (n : Z) (c : list Z) :
  len c = n -> forallb is_bit c = true -> wf_bits (BitString.mk n c) = true.
Proof.
  intros Hl Hb. unfold wf_bits. cbn [BitString.N BitString.config].
  rewrite Hb, andb_true_r. now apply Z.eqb_eq.
Qed.

Lemma wf_bits_elim (b : BitString.t) :
  wf_bits b = true ->
  len (BitString.config b) = BitString.N b /\
  forallb is_bit (BitString.config b) = true.
Proof.
  unfold wf_bits. intros H. apply andb_prop in H as [Hl Hb].
  split; [now apply Z.eqb_eq | assumption].
Qed.

Lemma set_config_loop_copy :
  forall (s c spre pre : list Z),
    length spre = length pre -> length s = length c ->
    forallb in_int64 s = true ->
    BitString.set_config_loop (map Z.of_nat (seq (length pre) (length c)))
      (spre ++ s) (pre ++ c)
    = (Ok tt, pre ++ s).
Proof.
  induction s as [|u s IH]; intros [|v c] spre pre Hp Hl Hr;
    try discriminate Hl.
  - reflexivity.
  - cbn [length seq map BitString.set_config_loop].
    cbn in Hr. apply andb_prop in Hr as [Hu Hr].
    rewrite <- Hp at 1. rewrite getitem_app.
    rewrite setitem_app by assumption.
    rewrite (app_cons_assoc spre s), (app_cons_assoc pre c).
    rewrite <- (length_snoc pre u).
    rewrite IH; [now rewrite <- app_cons_assoc | | | assumption].
    + now rewrite !length_snoc, Hp.
    + now injection Hl.
Qed.

Lemma is_bit_in_int64 (s : list Z) :
  forallb is_bit s = true -> forallb in_int64 s = true.
Proof.
  induction s as [|u s IH]; [reflexivity|]. cbn [forallb].
  intros H. apply andb_prop in H as [Hu H]. rewrite IH by assumption.
  unfold is_bit in Hu. apply orb_prop in Hu as [Hu|Hu];
    apply Z.eqb_eq in Hu; subst; reflexivity.
Qed.

Lemma on_off_total (l : list Z) :
  forallb is_bit l = true ->
  forall a b,
    fold_left (fun ones x => if x =? 1 then ones + 1 else ones) l a
    + fold_left (fun zeroes x => if x =? 0 then zeroes + 1 else zeroes) l b
    = a + b + len l.
Proof.
  unfold len. induction l as [|x l IH]; intros Hb a b.
  - cbn. lia.
  - cbn [forallb] in Hb. apply andb_prop in Hb as [Hx Hb].
    cbn [fold_left length]. rewrite IH by assumption.
    unfold is_bit in Hx. apply orb_prop in Hx as [Hx|Hx];
      apply Z.eqb_eq in Hx; subst x; simpl Z.eqb; cbv iota; lia.
Qed.

Section Reachable.
Context {M : Math}.

Lemma set_int_config_loop_inv (n : Z) :
  forall (xs cfg : list Z) (dec : pyobj) (c : list Z),
    BitString.set_int_config_loop n xs cfg dec = Ok c ->
    length c = length cfg /\
    (forallb is_bit cfg = true -> forallb is_bit c = true).
Proof.
  induction xs as [|x xs IH]; intros cfg dec c.
  - cbn. intros [= <-]. tauto.
  - cbn [BitString.set_int_config_loop].
    destruct dec as [d|]; [|discriminate].
    destruct (d =? 0); [intros [= <-]; tauto|].
    destruct (d <? 0); [discriminate|].
    destruct (log2_ge d (n - x - 1)).
    + destruct (setitem cfg x 1) as [cfg'|e] eqn:E; cbn [bind];
        [|discriminate].
      intros H. apply IH in H as [Hl Hb].
      apply setitem_inv in E as [k ->].
      rewrite list_set_length in Hl. split; [assumption|].
      intros Hc. apply Hb. now apply list_set_forallb.
    + apply IH.
Qed.

Lemma reachable_wf_bits (b : BitString.t) : reachable b -> wf_bits b = true.
Proof.
  induction 1 as [n b Hinit | b i Hr IH | b s Hr IH Hs Hbits | b d Hr IH Hd].
  - unfold BitString.init in Hinit.
    destruct (Z.ltb_spec n 0); [discriminate|]. injection Hinit as <-.
    apply wf_bits_intro.
    + unfold len. rewrite repeat_length. lia.
    + clear. induction (Z.to_nat n); cbn; auto.
  - pose proof (wf_bits_elim _ IH) as [Hl Hb].
    assert (Hk : forall k,
              wf_bits
                (BitString.mk (BitString.N b)
                   (list_set k
                      (if nth k (BitString.config b) 0 =? 1 then 0 else 1)
                      (BitString.config b))) = true).
    { intros k. apply wf_bits_intro.
      - unfold len. rewrite list_set_length. exact Hl.
      - apply list_set_forallb; [|assumption].
        now destruct (nth k (BitString.config b) 0 =? 1). }
    destruct (flip_site_shape b i) as [-> | [k ->]]; [exact IH | apply Hk].
  - apply wf_bits_elim in IH as [Hl Hb].
    unfold BitString.set_config, range. rewrite <- Hl.
    unfold len. rewrite Nat2Z.id.
    pose proof (set_config_loop_copy s (BitString.config b) [] []) as L.
    cbn [length app] in L. rewrite L.
    + cbn [snd]. apply wf_bits_intro; [|assumption].
      unfold len in *. lia.
    + reflexivity.
    + unfold len in *. lia.
    + now apply is_bit_in_int64.
  - pose proof (wf_bits_elim _ IH) as [Hl Hb].
    unfold BitString.set_int_config, BitString.init.
    destruct (BitString.N b <? 0) eqn:En; [exact IH|].
    cbn [BitString.N BitString.config].
    destruct (BitString.set_int_config_loop _ _ _ _) as [c|e] eqn:E;
      [|exact IH].
    cbn [snd]. apply set_int_config_loop_inv in E as [Hlen Hbits].
    apply wf_bits_intro.
    + unfold len. rewrite Hlen, repeat_length.
      apply Z.ltb_ge in En. lia.
    + apply Hbits. clear. induction (Z.to_nat (BitString.N b)); cbn; auto.
Qed.

End Reachable.

(** C9. Every bit string obtained from the constructor through [flip_site],
    [set_config] with a 0/1 sequence of length [N] and [set_int_config] with
    [0 <= d < 2^N] satisfies [on() + off() = N]: each cell is counted once,
    as a 1 or as a 0.  This holds whatever [math.log2] returns. *)
Theorem on_plus_off {M : Math} (b : BitString.t) :
  reachable b -> BitString.on b + BitString.off b = BitString.N b.
Proof.
  intros Hr. apply reachable_wf_bits in Hr.
  apply wf_bits_elim in Hr as [Hl Hb].
  unfold BitString.on, BitString.off.
  rewrite on_off_total by assumption. lia.
Qed.

Lemma on_plus_off_witness :
  BitString.on (BitString.mk 3 [1; 0; 0])
  + BitString.off (BitString.mk 3 [1; 0; 0]) = 3.
Proof.
  apply (@on_plus_off ideal_math (BitString.mk 3 [1; 0; 0])).
  apply (@reach_set_int_config ideal_math
           (snd (BitString.flip_site (BitString.mk 3 [0; 0; 0]) 1)) 4).
  - apply (@reach_flip_site ideal_math (BitString.mk 3 [0; 0; 0]) 1).
    apply (@reach_init ideal_math 3). reflexivity.
  - change (0 <= 4 < 8). lia.
Defined.

Example test_bitstring_on_off :
  BitString.on (BitString.mk 8 [0; 1; 1; 0; 0; 0; 0; 1]) = 3 /\
  BitString.off (BitString.mk 8 [0; 1; 1; 0; 0; 0; 0; 1]) = 5.
Proof. split; reflexivity. Qed.

(** ** The energy of a configuration *)

Lemma getitem_bit (cfg : list Z) (i : Z) :
  0 <= i < len cfg -> getitem cfg i = Ok (bit cfg i).
Proof.
  intros Hi. unfold getitem, norm_index, bit.
  destruct (Z.leb_spec 0 i); [|lia].
  destruct (Z.ltb_spec i (len cfg)); [|lia].
  cbn [andb bind]. unfold len in Hi.
  now rewrite (nth_error_nth' cfg 0) by lia.
Qed.

Lemma Qsum_cons (x : Q) (l : list Q) : Qsum (x :: l) = (x + Qsum l)%Q.
Proof. reflexivity. Qed.

(** The inner loop of [energy] over the pairs of one site. *)
Lemma energy_pairs_sum (cfg : list Z) (i : Z) :
  0 <= i < len cfg ->
  forall (Ji : list (Z * Q)) (e : Q),
    valid_neighbours (len cfg) Ji = true ->
    exists e',
      for_each Ji (IsingHamiltonian.energy_pair cfg i) e = Ok e' /\
      (e' == e + site_term cfg i Ji)%Q.
Proof.
  intros Hi. induction Ji as [|[j s] Ji IH]; intros e Hv.
  - exists e. split; [reflexivity|]. unfold site_term. cbn. ring.
  - cbn [valid_neighbours forallb fst] in Hv.
    apply andb_prop in Hv as [Hj Hv]. apply andb_prop in Hj as [Hj0 Hjn].
    apply Z.leb_le in Hj0. apply Z.ltb_lt in Hjn.
    cbn [for_each]. unfold IsingHamiltonian.energy_pair at 1. cbn [fst snd].
    unfold site_term. cbn [filter fst].
    destruct (Z.ltb_spec j i) as [Hlt|Hge]; cbn [bind].
    + destruct (Z.leb_spec i j); [lia|].
      destruct (IH e Hv) as (e' & He & Heq). exists e'. now split.
    + destruct (Z.leb_spec i j); [|lia].
      rewrite (getitem_bit cfg i), (getitem_bit cfg j) by lia. cbn [bind].
      destruct (IH (if bit cfg i =? bit cfg j then e + s else e - s)%Q Hv)
        as (e' & He & Heq).
      exists e'. split; [assumption|]. rewrite Heq.
      cbn [map]. rewrite Qsum_cons. unfold site_term, pair_term. cbn [fst snd].
      destruct (bit cfg i =? bit cfg j); ring.
Qed.

(** The outer loop of [energy] from site [length pre] on. *)
Lemma energy_sites_sum (J : list (list (Z * Q))) (cfg : list Z) :
  len J = len cfg ->
  forall (rest pre : list (list (Z * Q))) (e : Q),
    J = pre ++ rest ->
    forallb (valid_neighbours (len cfg)) rest = true ->
    exists e',
      for_each (map Z.of_nat (seq (length pre) (length rest)))
        (fun i e0 =>
           Ji <- getitem J i ;;
           for_each Ji (IsingHamiltonian.energy_pair cfg i) e0) e = Ok e' /\
      (e' == e + coupling_energy
                   (map Z.of_nat (seq (length pre) (length rest))) rest cfg)%Q.
Proof.
  intros Hlen. induction rest as [|Ji rest IH]; intros pre e HJ Hv.
  - exists e. split; [reflexivity|]. unfold coupling_energy. cbn. ring.
  - cbn [forallb] in Hv. apply andb_prop in Hv as [HJi Hv].
    cbn [length seq map for_each].
    assert (Hg : getitem J (Z.of_nat (length pre)) = Ok Ji)
      by (rewrite HJ; apply getitem_app).
    cbv beta. rewrite Hg. cbn [bind].
    assert (Hi : 0 <= Z.of_nat (length pre) < len cfg).
    { rewrite <- Hlen, HJ. unfold len. rewrite length_app. cbn [length]. lia. }
    destruct (energy_pairs_sum cfg _ Hi Ji e HJi) as (e1 & He1 & Heq1).
    rewrite He1. cbn [bind].
    rewrite <- (length_snoc pre Ji).
    destruct (IH (pre ++ [Ji]) e1) as (e' & He & Heq).
    { now rewrite <- app_cons_assoc. }
    { assumption. }
    exists e'. split; [assumption|]. rewrite Heq, Heq1.
    unfold coupling_energy. cbn [combine map fst snd]. rewrite Qsum_cons.
    rewrite (length_snoc pre Ji). ring.
Qed.

Lemma spin_of_bit (b : Z) : is_bit b = true -> wrap64 (2 * b - 1) = 2 * b - 1.
Proof.
  unfold is_bit. intros H. apply orb_prop in H as [H|H];
    apply Z.eqb_eq in H; subst b; reflexivity.
Qed.

Lemma np_dot_fold (mu : list Q) :
  forall (cfg : list Z) (a : Q),
    forallb is_bit cfg = true ->
    (fold_left (fun acc p => acc + fst p * inject_Z (snd p))
       (combine mu (spins cfg)) a
     == a + field_energy mu cfg)%Q.
Proof.
  induction mu as [|m mu IH]; intros cfg a Hb.
  - unfold field_energy. cbn. ring.
  - destruct cfg as [|b cfg].
    + unfold field_energy. cbn. ring.
    + cbn [forallb] in Hb. apply andb_prop in Hb as [Hb0 Hb].
      cbn [spins map combine fold_left fst snd].
      change (map (fun b0 => wrap64 (2 * b0 - 1)) cfg) with (spins cfg).
      rewrite IH by assumption. rewrite spin_of_bit by assumption.
      unfold field_energy. cbn [combine map fst snd]. rewrite Qsum_cons. ring.
Qed.

Lemma np_dot_field (mu : list Q) (cfg : list Z) :
  len mu = len cfg -> forallb is_bit cfg = true ->
  exists d, np_dot mu (spins cfg) = Ok d /\ (d == field_energy mu cfg)%Q.
Proof.
  intros Hl Hb. unfold np_dot.
  assert (Hs : len (spins cfg) = len cfg)
    by (unfold len, spins; now rewrite length_map).
  rewrite Hs. destruct (Z.eqb_spec (len mu) (len cfg)); [|contradiction].
  cbn [negb]. eexists. split; [reflexivity|].
  rewrite np_dot_fold by assumption. ring.
Qed.

Lemma wf_model_elim (h : IsingHamiltonian.t) :
  wf_model h = true ->
  len (IsingHamiltonian.mu h) = IsingHamiltonian.N h /\
  forallb (valid_neighbours (IsingHamiltonian.N h)) (IsingHamiltonian.J h)
  = true.
Proof.
  unfold wf_model. intros H. apply andb_prop in H as [H1 H2].
  split; [now apply Z.eqb_eq | assumption].
Qed.

Lemma energy_sum (h : IsingHamiltonian.t) (c : BitString.t) :
  wf_model h = true -> wf_bits c = true ->
  BitString.N c = IsingHamiltonian.N h ->
  exists e,
    IsingHamiltonian.energy h c = Ok e /\
    (e == energy_spec h (BitString.config c))%Q.
Proof.
  intros Hh Hc Hn.
  apply wf_model_elim in Hh as [Hmu HJ].
  apply wf_bits_elim in Hc as [Hl Hb].
  unfold IsingHamiltonian.energy, energy_spec.
  unfold IsingHamiltonian.N in *.
  destruct (Z.eqb_spec (len (BitString.config c)) (len (IsingHamiltonian.J h)));
    [|lia].
  cbn [negb]. rewrite Hn.
  change (range (len (IsingHamiltonian.J h)))
    with (range (Z.of_nat (length (IsingHamiltonian.J h)))).
  rewrite range_seq.
  destruct (energy_sites_sum (IsingHamiltonian.J h) (BitString.config c))
    with (rest := IsingHamiltonian.J h) (pre := @nil (list (Z * Q)))
         (e := 0%Q) as (e1 & He1 & Heq1).
  - lia.
  - reflexivity.
  - now rewrite Hl, Hn.
  - cbn [length] in He1, Heq1. rewrite He1. cbn [bind].
    destruct (np_dot_field (IsingHamiltonian.mu h) (BitString.config c))
      as (d & Hd & Heqd); [lia | assumption |].
    rewrite Hd. cbn [bind]. eexists. split; [reflexivity|].
    rewrite Heq1, Heqd. ring.
Qed.

(** C1. For a model with [N] sites (one field per site, neighbour indices
    in [0, N)) and a bit string of length [N] holding bits, [energy] returns
    the sum, over the sites [i] and the pairs [(j, s)] of site [i] with
    [j >= i], of [+s] when the bits of [i] and [j] agree and [-s] when they
    differ, plus the sum over the sites of [mu_i * (2 * bit_i - 1)]; the
    pairs with [j < i] contribute nothing. *)
Theorem energy_is_coupling_plus_field (h : IsingHamiltonian.t) (c : BitString.t) :
  wf_model h = true -> wf_bits c = true ->
  BitString.N c = IsingHamiltonian.N h ->
  exists e,
    IsingHamiltonian.energy h c = Ok e /\
    (e == coupling_energy (range (IsingHamiltonian.N h))
            (IsingHamiltonian.J h) (BitString.config c)
          + field_energy (IsingHamiltonian.mu h) (BitString.config c))%Q.
Proof. exact (energy_sum h c). Qed.

Lemma energy_is_coupling_plus_field_witness :
  exists e,
    IsingHamiltonian.energy chain3 (BitString.mk 3 [0; 1; 0]) = Ok e /\
    (e == coupling_energy (range 3%Z) (IsingHamiltonian.J chain3) [0; 1; 0]%Z
          + field_energy (IsingHamiltonian.mu chain3) [0; 1; 0]%Z)%Q.
Proof.
  apply (energy_is_coupling_plus_field chain3 (BitString.mk 3 [0; 1; 0]));
    reflexivity.
Defined.

Example test_energy_chain3 :
  exists e,
    IsingHamiltonian.energy chain3 (BitString.mk 3 [0; 1; 0]) = Ok e /\
    (e == -32 # 10)%Q.
Proof. eexists. split; [vm_compute; reflexivity | reflexivity]. Qed.

(** ** Enumeration of the configurations *)

Lemma In_range (n i : Z) : In i (range n) -> 0 <= i < n.
Proof.
  unfold range. intros H. apply in_map_iff in H as (k & <- & Hk).
  apply in_seq in Hk. lia.
Qed.

Lemma fold_left_Zadd (l : list Z) (a : Z) :
  fold_left Z.add l a = a + fold_right Z.add 0 l.
Proof.
  revert a. induction l as [|x l IH]; intros a; cbn [fold_left fold_right].
  - lia.
  - rewrite IH. lia.
Qed.

Lemma spins_bits (cfg : list Z) :
  forallb is_bit cfg = true -> spins cfg = map (fun b => 2 * b - 1) cfg.
Proof.
  induction cfg as [|b cfg IH]; [reflexivity|]. cbn [forallb spins map].
  intros H. apply andb_prop in H as [Hb H].
  rewrite spin_of_bit by assumption. f_equal. now apply IH.
Qed.

Lemma net_spin_bound (cfg : list Z) :
  forallb is_bit cfg = true ->
  - len cfg <= fold_right Z.add 0 (map (fun b => 2 * b - 1) cfg) <= len cfg.
Proof.
  unfold len. induction cfg as [|b cfg IH]; cbn [forallb map fold_right length].
  - lia.
  - intros H. apply andb_prop in H as [Hb H]. specialize (IH H).
    unfold is_bit in Hb. apply orb_prop in Hb as [Hb|Hb];
      apply Z.eqb_eq in Hb; subst b; lia.
Qed.

Lemma wrap64_small (v : Z) : int64_min <= v <= int64_max -> wrap64 v = v.
Proof.
  unfold int64_min, int64_max, wrap64. intros H.
  rewrite Z.mod_small; lia.
Qed.

Lemma np_sum_spins (cfg : list Z) :
  forallb is_bit cfg = true -> len cfg <= int64_max ->
  np_sum (spins cfg) = fold_right Z.add 0 (map (fun b => 2 * b - 1) cfg).
Proof.
  intros Hb Hl. unfold np_sum. rewrite spins_bits by assumption.
  rewrite fold_left_Zadd, Z.add_0_l.
  pose proof (net_spin_bound cfg Hb).
  apply wrap64_small. unfold int64_min, int64_max in *. lia.
Qed.

Lemma N_nonneg (h : IsingHamiltonian.t) : 0 <= IsingHamiltonian.N h.
Proof. unfold IsingHamiltonian.N, len. lia. Qed.

Lemma config_of_wf (h : IsingHamiltonian.t) (i : Z) :
  wf_bits (BitString.mk (IsingHamiltonian.N h) (config_of h i)) = true.
Proof.
  apply wf_bits_intro.
  - unfold len, config_of. rewrite bits_msb_length.
    apply Z2Nat.id, N_nonneg.
  - apply bits_msb_forall.
Qed.

Lemma Rsum_cons (x : R) (l : list R) : Rsum (x :: l) = (x + Rsum l)%R.
Proof. reflexivity. Qed.

Section Enumeration.
Context {M : Math}.
Variable h : IsingHamiltonian.t.
Hypothesis Hwf : wf_model h = true.
Hypothesis Hexact : log2_exact_below (IsingHamiltonian.N h).

(** One pass of the scratch bit string through [set_int_config] and
    [energy]. *)
Lemma decode_then_energy (conf : BitString.t) (i : Z) :
  BitString.N conf = IsingHamiltonian.N h ->
  0 <= i < 2 ^ IsingHamiltonian.N h ->
  call (BitString.set_int_config conf (PyInt i))
  = Ok (BitString.mk (IsingHamiltonian.N h) (config_of h i)) /\
  exists e,
    IsingHamiltonian.energy h
      (BitString.mk (IsingHamiltonian.N h) (config_of h i)) = Ok e /\
    (e == energy_spec h (config_of h i))%Q.
Proof.
  intros Hn Hi. split.
  - rewrite set_int_config_bits by (rewrite Hn; assumption).
    unfold call. cbn [fst snd]. now rewrite Hn.
  - apply (energy_sum h _ Hwf (config_of_wf h i)). reflexivity.
Qed.

Lemma average_step_spec (T : R) (conf : BitString.t) (a : IsingHamiltonian.sums)
  (i : Z) :
  IsingHamiltonian.N h <= int64_max ->
  BitString.N conf = IsingHamiltonian.N h ->
  0 <= i < 2 ^ IsingHamiltonian.N h ->
  IsingHamiltonian.average_step h T i (conf, a)
  = Ok (BitString.mk (IsingHamiltonian.N h) (config_of h i),
        IsingHamiltonian.mk_sums
          (IsingHamiltonian.sE a + E_of h i * Z_of h T i)
          (IsingHamiltonian.sM a + M_of h i * Z_of h T i)
          (IsingHamiltonian.sZ a + Z_of h T i)
          (IsingHamiltonian.sEE a + E_of h i * E_of h i * Z_of h T i)
          (IsingHamiltonian.sMM a + M_of h i * M_of h i * Z_of h T i))%R.
Proof.
  intros Hmax Hn Hi.
  destruct (decode_then_energy conf i Hn Hi) as [Hset (e & He & Heq)].
  unfold IsingHamiltonian.average_step. rewrite Hset. cbn [bind].
  rewrite He. cbn [bind BitString.config].
  pose proof (wf_bits_elim _ (config_of_wf h i)) as [Hl Hb].
  cbn [BitString.N BitString.config] in Hl, Hb.
  rewrite np_sum_spins by (rewrite ?Hl; assumption).
  apply Qeq_eqR in Heq. rewrite Heq.
  reflexivity.
Qed.

Lemma average_loop (T : R) :
  IsingHamiltonian.N h <= int64_max ->
  forall (items : list Z) (conf : BitString.t) (a : IsingHamiltonian.sums),
    (forall i, In i items -> 0 <= i < 2 ^ IsingHamiltonian.N h) ->
    BitString.N conf = IsingHamiltonian.N h ->
    exists conf' a',
      for_each items (IsingHamiltonian.average_step h T) (conf, a)
      = Ok (conf', a') /\
      (IsingHamiltonian.sE a'
       = IsingHamiltonian.sE a
         + Rsum (map (fun i => E_of h i * Z_of h T i) items))%R /\
      (IsingHamiltonian.sM a'
       = IsingHamiltonian.sM a
         + Rsum (map (fun i => M_of h i * Z_of h T i) items))%R /\
      (IsingHamiltonian.sZ a'
       = IsingHamiltonian.sZ a + Rsum (map (Z_of h T) items))%R /\
      (IsingHamiltonian.sEE a'
       = IsingHamiltonian.sEE a
         + Rsum (map (fun i => E_of h i * E_of h i * Z_of h T i) items))%R /\
      (IsingHamiltonian.sMM a'
       = IsingHamiltonian.sMM a
         + Rsum (map (fun i => M_of h i * M_of h i * Z_of h T i) items))%R.
Proof.
  intros Hmax. induction items as [|i items IH]; intros conf a Hin Hn.
  - exists conf, a. split; [reflexivity|].
    cbn [map Rsum fold_right]. repeat split; ring.
  - cbn [for_each].
    rewrite average_step_spec by (try assumption; apply Hin; now left).
    cbn [bind].
    destruct (IH (BitString.mk (IsingHamiltonian.N h) (config_of h i))
                (IsingHamiltonian.mk_sums
                   (IsingHamiltonian.sE a + E_of h i * Z_of h T i)
                   (IsingHamiltonian.sM a + M_of h i * Z_of h T i)
                   (IsingHamiltonian.sZ a + Z_of h T i)
                   (IsingHamiltonian.sEE a + E_of h i * E_of h i * Z_of h T i)
                   (IsingHamiltonian.sMM a + M_of h i * M_of h i * Z_of h T i))%R)
      as (conf' & a' & Hrun & HE & HM & HZ & HEE & HMM).
    { intros j Hj. apply Hin. now right. }
    { reflexivity. }
    exists conf', a'. split; [exact Hrun|].
    cbn [IsingHamiltonian.sE IsingHamiltonian.sM IsingHamiltonian.sZ
         IsingHamiltonian.sEE IsingHamiltonian.sMM] in *.
    rewrite HE, HM, HZ, HEE, HMM. cbn [map]. rewrite !Rsum_cons.
    repeat split; ring.
Qed.

Lemma compute_average_values_spec (T : R) :
  IsingHamiltonian.N h <= int64_max ->
  IsingHamiltonian.compute_average_values h T = Ok (averages_spec h T).
Proof.
  intros Hmax. unfold IsingHamiltonian.compute_average_values, BitString.init.
  pose proof (N_nonneg h).
  destruct (Z.ltb_spec (IsingHamiltonian.N h) 0); [lia|].
  cbn [bind BitString.N].
  destruct (average_loop T Hmax (range (2 ^ IsingHamiltonian.N h))
              (BitString.mk (IsingHamiltonian.N h)
                 (repeat 0 (Z.to_nat (IsingHamiltonian.N h))))
              (IsingHamiltonian.mk_sums 0 0 0 0 0))
    as (conf' & a' & Hrun & HE & HM & HZ & HEE & HMM).
  { intros i. apply In_range. }
  { reflexivity. }
  rewrite Hrun. cbn [bind snd].
  cbn [IsingHamiltonian.sE IsingHamiltonian.sM IsingHamiltonian.sZ
       IsingHamiltonian.sEE IsingHamiltonian.sMM] in *.
  rewrite HE, HM, HZ, HEE, HMM, !Rplus_0_l.
  reflexivity.
Qed.

End Enumeration.

Lemma partition_pos (h : IsingHamiltonian.t) (T : R) : (0 < partition h T)%R.
Proof.
  unfold partition, indices.
  assert (Hp : 0 < 2 ^ IsingHamiltonian.N h)
    by (apply Z.pow_pos_nonneg; [lia | apply N_nonneg]).
  unfold range. destruct (Z.to_nat (2 ^ IsingHamiltonian.N h)) as [|m] eqn:E;
    [lia|].
  cbn [seq map Rsum fold_right].
  apply Rplus_lt_le_0_compat; [apply exp_pos|].
  generalize (seq 1 m). intros l. induction l as [|x l IH]; cbn.
  - lra.
  - pose proof (exp_pos (- E_of h (Z.of_nat x) / T)). unfold Z_of at 1. lra.
Qed.

(** C3. For a model with [N] sites and a positive temperature [T],
    [compute_average_values(T)] runs over the indices [0 .. 2^N - 1],
    decodes each into its configuration and returns [(E, M, HC, MS)] with
    [E] and [M] the weighted sums of the energies and of the net spins
    divided by [Z = sum of exp(-E_i/T)], [HC = (EE/Z - E^2)/T^2] and
    [MS = (MM/Z - M^2)/T]; [Z] is positive.  Floats are read as real
    numbers and the comparison on [math.log2] is assumed exact below
    [2^N]. *)
Theorem compute_average_values_formula {M : Math} (h : IsingHamiltonian.t)
  (T : R) :
  wf_model h = true ->
  log2_exact_below (IsingHamiltonian.N h) ->
  IsingHamiltonian.N h <= int64_max ->
  (0 < T)%R ->
  IsingHamiltonian.compute_average_values h T = Ok (averages_spec h T) /\
  (0 < partition h T)%R.
Proof.
  intros Hwf Hex Hmax HT. split.
  - now apply compute_average_values_spec.
  - apply partition_pos.
Qed.

Lemma compute_average_values_formula_witness :
  @IsingHamiltonian.compute_average_values ideal_math chain3 1
  = Ok (averages_spec chain3 1) /\
  (0 < partition chain3 1)%R.
Proof.
  apply (@compute_average_values_formula ideal_math chain3 1%R).
  - reflexivity.
  - intros dec k _ _. reflexivity.
  - vm_compute. discriminate.
  - lra.
Defined.

(** ** Ground-state search *)

Lemma Qlt_bool_true (x y : Q) : Qlt_bool x y = true -> (x < y)%Q.
Proof.
  unfold Qlt_bool. intros H. apply negb_true_iff in H.
  apply Qnot_le_lt. intros Hle. apply Qle_bool_iff in Hle. congruence.
Qed.

Lemma Qlt_bool_false (x y : Q) : Qlt_bool x y = false -> (y <= x)%Q.
Proof.
  unfold Qlt_bool. intros H. apply negb_false_iff in H.
  now apply Qle_bool_iff.
Qed.

Lemma np_power2_small (n : Z) : 0 <= n < 63 -> np_power2 n = 2 ^ n.
Proof.
  intros Hn. unfold np_power2. apply wrap64_small.
  unfold int64_min, int64_max.
  assert (0 < 2 ^ n) by (apply Z.pow_pos_nonneg; lia).
  assert (2 ^ n <= 2 ^ 62) by (apply Z.pow_le_mono_r; lia).
  lia.
Qed.

Lemma set_int_config_None {M : Math} (b : BitString.t) :
  0 < BitString.N b ->
  BitString.set_int_config b PyNone = (Raise TypeError, b).
Proof.
  intros Hn. unfold BitString.set_int_config, BitString.init.
  destruct (Z.ltb_spec (BitString.N b) 0); [lia|].
  cbn [BitString.N BitString.config]. unfold range.
  destruct (Z.to_nat (BitString.N b)) as [|m] eqn:E; [lia|].
  reflexivity.
Qed.

Section GroundState.
Context {M : Math}.
Variable h : IsingHamiltonian.t.
Hypothesis Hwf : wf_model h = true.
Hypothesis Hexact : log2_exact_below (IsingHamiltonian.N h).


Lemma lowest_loop :
  forall (items : list Z) (conf : BitString.t) (emin : Q) (xmin : pyobj),
    BitString.N conf = IsingHamiltonian.N h ->
    (forall i, In i items -> 0 <= i < 2 ^ IsingHamiltonian.N h) ->
    best_so_far h emin xmin ->
    exists conf' emin' xmin',
      for_each items (IsingHamiltonian.lowest_step h) (conf, emin, xmin)
      = Ok (conf', emin', xmin') /\
      BitString.N conf' = IsingHamiltonian.N h /\
      best_so_far h emin' xmin' /\
      (emin' <= emin)%Q /\
      (forall i, In i items -> (emin' <= energy_at h i)%Q).
Proof.
  induction items as [|i items IH]; intros conf emin xmin Hn Hin Hbest.
  - exists conf, emin, xmin. repeat split; try assumption.
    + apply Qle_refl.
    + intros i [].
  - assert (Hi : 0 <= i < 2 ^ IsingHamiltonian.N h) by (apply Hin; now left).
    destruct (decode_then_energy h Hwf Hexact conf i Hn Hi)
      as [Hset (e & He & Heq)].
    fold (energy_at h i) in Heq.
    cbn [for_each]. unfold IsingHamiltonian.lowest_step at 1.
    rewrite Hset. cbn [bind]. rewrite He. cbn [bind].
    assert (Hin' : forall j, In j items -> 0 <= j < 2 ^ IsingHamiltonian.N h)
      by (intros j Hj; apply Hin; now right).
    assert (H0 : (emin <= energy_at h 0)%Q).
    { destruct Hbest as [[_ H]|(j & _ & _ & _ & H)].
      - rewrite H. apply Qle_refl.
      - now apply Qlt_le_weak. }
    destruct (Qlt_bool e emin) eqn:Elt; cbn [bind].
    + apply Qlt_bool_true in Elt.
      destruct (IH (BitString.mk (IsingHamiltonian.N h) (config_of h i)) e
                  (PyInt i) eq_refl Hin')
        as (conf' & emin' & xmin' & Hrun & Hn' & Hb' & Hle & Hall).
      { right. exists i. repeat split; try assumption; try lia.
        eapply Qlt_le_trans; eassumption. }
      exists conf', emin', xmin'. repeat split; try assumption.
      * apply Qle_trans with e; [assumption | now apply Qlt_le_weak].
      * intros j [<-|Hj]; [now rewrite <- Heq | now apply Hall].
    + apply Qlt_bool_false in Elt.
      destruct (IH (BitString.mk (IsingHamiltonian.N h) (config_of h i)) emin
                  xmin eq_refl Hin' Hbest)
        as (conf' & emin' & xmin' & Hrun & Hn' & Hb' & Hle & Hall).
      exists conf', emin', xmin'. repeat split; try assumption.
      intros j [<-|Hj]; [|now apply Hall].
      rewrite <- Heq. apply Qle_trans with emin; assumption.
Qed.

(** The state in which the loop of [get_lowest_energy_config] ends. *)
Lemma lowest_search :
  0 <= IsingHamiltonian.N h < 63 ->
  exists conf emin xmin,
    (my_bs <- BitString.init (IsingHamiltonian.N h) ;;
     my_bs <- call (BitString.set_int_config my_bs (PyInt 0)) ;;
     emin0 <- IsingHamiltonian.energy h my_bs ;;
     for_each (range (np_power2 (BitString.N my_bs)))
       (IsingHamiltonian.lowest_step h) (my_bs, emin0, PyNone))
    = Ok (conf, emin, xmin) /\
    BitString.N conf = IsingHamiltonian.N h /\
    best_so_far h emin xmin /\
    (forall i, 0 <= i < 2 ^ IsingHamiltonian.N h -> (emin <= energy_at h i)%Q).
Proof.
  intros HN. unfold BitString.init.
  destruct (Z.ltb_spec (IsingHamiltonian.N h) 0); [lia|]. cbn [bind].
  assert (H0 : 0 <= 0 < 2 ^ IsingHamiltonian.N h).
  { assert (0 < 2 ^ IsingHamiltonian.N h) by (apply Z.pow_pos_nonneg; lia).
    lia. }
  destruct (decode_then_energy h Hwf Hexact
              (BitString.mk (IsingHamiltonian.N h)
                 (repeat 0 (Z.to_nat (IsingHamiltonian.N h)))) 0 eq_refl H0)
    as [Hset (e & He & Heq)].
  rewrite Hset. cbn [bind]. rewrite He. cbn [bind BitString.N].
  rewrite np_power2_small by assumption.
  destruct (lowest_loop (range (2 ^ IsingHamiltonian.N h))
              (BitString.mk (IsingHamiltonian.N h) (config_of h 0)) e PyNone
              eq_refl)
    as (conf & emin & xmin & Hrun & Hn & Hb & _ & Hall).
  { intros i. apply In_range. }
  { left. split; [reflexivity | exact Heq]. }
  exists conf, emin, xmin. repeat split; try assumption.
  intros i Hi. apply Hall. unfold range. apply in_map_iff.
  exists (Z.to_nat i). split; [lia|]. apply in_seq. lia.
Qed.

Lemma get_lowest_energy_config_unfold :
  IsingHamiltonian.get_lowest_energy_config h
  = (st <- (my_bs <- BitString.init (IsingHamiltonian.N h) ;;
            my_bs <- call (BitString.set_int_config my_bs (PyInt 0)) ;;
            emin0 <- IsingHamiltonian.energy h my_bs ;;
            for_each (range (np_power2 (BitString.N my_bs)))
              (IsingHamiltonian.lowest_step h) (my_bs, emin0, PyNone)) ;;
     let '(my_bs, emin, xmin) := st in
     my_bs <- call (BitString.set_int_config my_bs xmin) ;;
     Ok (emin, BitString.config my_bs)).
Proof.
  unfold IsingHamiltonian.get_lowest_energy_config.
  destruct (BitString.init (IsingHamiltonian.N h)) as [b|e]; [|reflexivity].
  cbn [bind].
  destruct (call (BitString.set_int_config b (PyInt 0))) as [b'|e];
    [|reflexivity].
  cbn [bind].
  destruct (IsingHamiltonian.energy h b') as [e0|e]; reflexivity.
Qed.

(** When index 0 is a ground state no index is ever recorded, and the
    final [set_int_config(None)] raises. *)
Lemma lowest_raises_when_index0_optimal :
  0 < IsingHamiltonian.N h < 63 ->
  (forall i, 0 <= i < 2 ^ IsingHamiltonian.N h -> (energy_at h 0 <= energy_at h i)%Q) ->
  IsingHamiltonian.get_lowest_energy_config h = Raise TypeError.
Proof.
  intros HN Hopt.
  destruct lowest_search as (conf & emin & xmin & Hrun & Hn & Hb & Hall);
    [lia|].
  rewrite get_lowest_energy_config_unfold, Hrun. cbn [bind].
  destruct Hb as [[-> _]|(j & _ & Hj & Hej & Hlt)].
  - rewrite set_int_config_None by lia. reflexivity.
  - exfalso. specialize (Hopt j Hj). rewrite <- Hej in Hopt.
    apply (Qlt_irrefl emin). eapply Qlt_le_trans; eassumption.
Qed.

(** When some configuration lies strictly below index 0, the search
    returns the minimum energy and a configuration that attains it. *)
Lemma lowest_returns_when_improved :
  0 <= IsingHamiltonian.N h < 63 ->
  (exists i, 0 <= i < 2 ^ IsingHamiltonian.N h /\ (energy_at h i < energy_at h 0)%Q) ->
  exists emin j,
    IsingHamiltonian.get_lowest_energy_config h = Ok (emin, config_of h j) /\
    0 <= j < 2 ^ IsingHamiltonian.N h /\
    (emin == energy_at h j)%Q /\
    (forall i, 0 <= i < 2 ^ IsingHamiltonian.N h -> (emin <= energy_at h i)%Q).
Proof.
  intros HN (i & Hi & Hlt).
  destruct lowest_search as (conf & emin & xmin & Hrun & Hn & Hb & Hall);
    [lia|].
  rewrite get_lowest_energy_config_unfold, Hrun. cbn [bind].
  destruct Hb as [[_ He0]|(j & -> & Hj & Hej & _)].
  - exfalso. specialize (Hall i Hi). rewrite He0 in Hall.
    apply (Qlt_irrefl (energy_at h i)). eapply Qlt_le_trans; eassumption.
  - exists emin, j.
    rewrite set_int_config_bits by (rewrite Hn; assumption).
    unfold call. cbn [fst snd bind BitString.config]. rewrite Hn.
    repeat split; try assumption; lia.
Qed.

End GroundState.

(** C2.  The search initialises [emin] with the energy of index 0 and
    records an index only on a strict improvement, so when index 0 is
    itself a ground state [xmin] is still [None] after the loop and the
    final [set_int_config(xmin)] raises [TypeError]: no minimum and no
    configuration are returned, where the documented behaviour is to
    return index 0's configuration. *)
Theorem get_lowest_energy_config_index0_optimal {M : Math}
  (h : IsingHamiltonian.t) :
  wf_model h = true ->
  log2_exact_below (IsingHamiltonian.N h) ->
  0 < IsingHamiltonian.N h < 63 ->
  (forall i, 0 <= i < 2 ^ IsingHamiltonian.N h ->
     (energy_at h 0 <= energy_at h i)%Q) ->
  IsingHamiltonian.get_lowest_energy_config h = Raise TypeError.
Proof.
  intros Hwf Hex HN Hopt.
  now apply lowest_raises_when_index0_optimal.
Qed.

Lemma get_lowest_energy_config_index0_optimal_witness :
  @IsingHamiltonian.get_lowest_energy_config ideal_math chain3_aligned
  = Raise TypeError.
Proof.
  apply (@get_lowest_energy_config_index0_optimal ideal_math chain3_aligned).
  - reflexivity.
  - intros dec k _ _. reflexivity.
  - cbn. lia.
  - intros i Hi. change (0 <= i < 8) in Hi.
    assert (Hc : i = 0 \/ i = 1 \/ i = 2 \/ i = 3 \/ i = 4 \/ i = 5 \/ i = 6
                 \/ i = 7) by lia.
    repeat (destruct Hc as [-> | Hc]); try subst i; vm_compute; discriminate.
Defined.

Example get_lowest_energy_config_single_site :
  @IsingHamiltonian.get_lowest_energy_config ideal_math single_site
  = Raise TypeError.
Proof. vm_compute. reflexivity. Qed.

Example test_get_lowest_energy_config :
  exists emin,
    @IsingHamiltonian.get_lowest_energy_config ideal_math chain3
    = Ok (emin, [0; 1; 0]) /\ (emin == -32 # 10)%Q.
Proof. eexists. split; [vm_compute; reflexivity | reflexivity]. Qed.

(** ** Construction, flipping and counting *)

Lemma on_repeat_zero (k : nat) (a : Z) :
  fold_left (fun ones x => if x =? 1 then ones + 1 else ones) (repeat 0 k) a = a.
Proof. revert a. induction k as [|k IH]; intros a; cbn; auto. Qed.

Lemma forallb_repeat_zero (k : nat) : forallb is_bit (repeat 0 k) = true.
Proof. induction k; cbn; auto. Qed.

(** X1.  [BitString(N)] raises [ValueError] for a negative [N]; for
    [N >= 0] it yields [N] cells that are all off: [on()] is 0, [off()] is
    [N] and [int()] is 0. *)
Theorem init_all_off (n : Z) :
  (n < 0 -> BitString.init n = Raise ValueError) /\
  (0 <= n ->
   exists b,
     BitString.init n = Ok b /\
     BitString.N b = n /\ len (BitString.config b) = n /\
     BitString.on b = 0 /\ BitString.off b = n /\ BitString.int b = Ok 0).
Proof.
  unfold BitString.init. split; intros Hn.
  - destruct (Z.ltb_spec n 0); [reflexivity | lia].
  - destruct (Z.ltb_spec n 0); [lia|].
    eexists. split; [reflexivity|].
    cbn [BitString.N BitString.config].
    assert (Hl : len (repeat 0 (Z.to_nat n)) = n)
      by (unfold len; rewrite repeat_length; lia).
    assert (Hon : BitString.on (BitString.mk n (repeat 0 (Z.to_nat n))) = 0)
      by apply on_repeat_zero.
    repeat split; try assumption.
    + pose proof (on_off_total (repeat 0 (Z.to_nat n))
                    (forallb_repeat_zero _) 0 0) as Htot.
      unfold BitString.on, BitString.off in *.
      cbn [BitString.config] in *. lia.
    + rewrite <- bits_msb_zero. apply int_bits; [assumption|].
      split; [lia | apply Z.pow_pos_nonneg; lia].
Qed.

Lemma init_all_off_witness :
  exists b,
    BitString.init 4 = Ok b /\
    BitString.N b = 4 /\ len (BitString.config b) = 4 /\
    BitString.on b = 0 /\ BitString.off b = 4 /\ BitString.int b = Ok 0.
Proof. apply (init_all_off 4). lia. Defined.

Lemma norm_index_valid (n i : Z) :
  - n <= i < n ->
  exists k, norm_index n i = Ok k /\ (Z.of_nat k < n).
Proof.
  intros Hi. unfold norm_index.
  destruct (Z.leb_spec 0 i); destruct (Z.ltb_spec i n); cbn [andb].
  - exists (Z.to_nat i). split; [reflexivity | lia].
  - lia.
  - destruct (Z.leb_spec (- n) i); destruct (Z.ltb_spec i 0); cbn [andb];
      try lia.
    exists (Z.to_nat (n + i)). split; [reflexivity | lia].
  - lia.
Qed.

Lemma nth_list_set {A : Type} (k : nat) (v d : A) (l : list A) :
  (k < length l)%nat -> nth k (list_set k v l) d = v.
Proof.
  revert k. induction l as [|h l IH]; intros [|k] Hk; cbn in *; try lia; auto.
  apply IH. lia.
Qed.

Lemma list_set_twice {A : Type} (k : nat) (u v : A) (l : list A) :
  list_set k v (list_set k u l) = list_set k v l.
Proof.
  revert k. induction l as [|h l IH]; intros [|k]; cbn; auto.
  now rewrite IH.
Qed.

Lemma list_set_nth {A : Type} (k : nat) (d : A) (l : list A) :
  list_set k (nth k l d) l = l.
Proof.
  revert k. induction l as [|h l IH]; intros [|k]; cbn; auto.
  now rewrite IH.
Qed.

Lemma is_bit_cases (v : Z) : is_bit v = true -> v = 0 \/ v = 1.
Proof.
  unfold is_bit. intros H. apply orb_prop in H as [H|H];
    apply Z.eqb_eq in H; auto.
Qed.

Lemma forallb_nth_bit (l : list Z) (k : nat) :
  forallb is_bit l = true -> (k < length l)%nat -> is_bit (nth k l 0) = true.
Proof.
  intros Hb Hk. rewrite forallb_forall in Hb. apply Hb. now apply nth_In.
Qed.

(** X2.  On a bit string of [N] cells holding bits, [flip_site(i)] with
    [-N <= i < N] succeeds and is its own inverse: a second call at the same
    index gives back the original bit string. *)
Theorem flip_site_twice (self : BitString.t) (i : Z) :
  wf_bits self = true ->
  - BitString.N self <= i < BitString.N self ->
  fst (BitString.flip_site self i) = Ok tt /\
  BitString.flip_site (snd (BitString.flip_site self i)) i = (Ok tt, self).
Proof.
  intros Hwf Hi. apply wf_bits_elim in Hwf as [Hl Hb].
  rewrite <- Hl in Hi.
  destruct (norm_index_valid _ _ Hi) as (k & Hk & Hlt).
  unfold len in Hlt.
  rewrite (flip_site_at self i k Hk) by lia. cbn [fst snd]. split; [reflexivity|].
  rewrite (flip_site_at _ i k); cbn [BitString.N BitString.config].
  - rewrite nth_list_set by lia. rewrite list_set_twice.
    destruct (is_bit_cases _ (forallb_nth_bit _ k Hb ltac:(lia))) as [E|E];
      rewrite E; cbn [Z.eqb Pos.eqb];
      rewrite <- E, list_set_nth; now destruct self.
  - unfold len. now rewrite list_set_length.
  - rewrite list_set_length. lia.
Qed.

Lemma flip_site_twice_witness :
  fst (BitString.flip_site (BitString.mk 3 [0; 1; 1]) (-1)) = Ok tt /\
  BitString.flip_site
    (snd (BitString.flip_site (BitString.mk 3 [0; 1; 1]) (-1))) (-1)
  = (Ok tt, BitString.mk 3 [0; 1; 1]).
Proof.
  apply (flip_site_twice (BitString.mk 3 [0; 1; 1]) (-1)).
  - reflexivity.
  - cbn. lia.
Defined.

Lemma count_shift (f : Z -> bool) (l : list Z) (a : Z) :
  fold_left (fun c x => if f x then c + 1 else c) l a
  = a + fold_left (fun c x => if f x then c + 1 else c) l 0.
Proof.
  revert a. induction l as [|x l IH]; intros a; cbn [fold_left]; [lia|].
  rewrite IH, (IH (if f x then 0 + 1 else 0)). destruct (f x); lia.
Qed.

Lemma count_list_set (f : Z -> bool) (l : list Z) (k : nat) (v : Z) :
  (k < length l)%nat ->
  fold_left (fun c x => if f x then c + 1 else c) (list_set k v l) 0
  = fold_left (fun c x => if f x then c + 1 else c) l 0
    - Z.b2z (f (nth k l 0)) + Z.b2z (f v).
Proof.
  revert k. induction l as [|h l IH]; intros [|k] Hk; cbn [length] in Hk;
    try lia; cbn [list_set fold_left nth].
  - rewrite count_shift, (count_shift f l (if f h then _ else _)).
    destruct (f v), (f h); cbn [Z.b2z]; lia.
  - rewrite count_shift, (count_shift f l (if f h then _ else _)).
    rewrite IH by lia. lia.
Qed.

(** X3.  A successful [flip_site(i)] on a bit string holding bits moves
    exactly one cell between the two counts: flipping a 0 raises [on()] by
    one and lowers [off()] by one, flipping a 1 does the opposite. *)
Theorem flip_site_counts (self : BitString.t) (i : Z) :
  wf_bits self = true ->
  - BitString.N self <= i < BitString.N self ->
  exists k v,
    norm_index (BitString.N self) i = Ok k /\
    nth k (BitString.config self) 0 = v /\
    BitString.on (snd (BitString.flip_site self i))
    = BitString.on self + 1 - 2 * v /\
    BitString.off (snd (BitString.flip_site self i))
    = BitString.off self - 1 + 2 * v.
Proof.
  intros Hwf Hi. apply wf_bits_elim in Hwf as [Hl Hb].
  rewrite <- Hl in Hi |- *.
  destruct (norm_index_valid _ _ Hi) as (k & Hk & Hlt).
  unfold len in Hlt.
  exists k, (nth k (BitString.config self) 0).
  split; [assumption|]. split; [reflexivity|].
  rewrite (flip_site_at self i k Hk) by lia. cbn [snd].
  unfold BitString.on, BitString.off. cbn [BitString.config].
  rewrite (count_list_set (fun x => x =? 1)) by lia.
  rewrite (count_list_set (fun x => x =? 0)) by lia.
  destruct (is_bit_cases _ (forallb_nth_bit _ k Hb ltac:(lia))) as [E|E];
    rewrite E; cbn; lia.
Qed.

Lemma flip_site_counts_witness :
  exists k v,
    norm_index 3 1 = Ok k /\
    nth k [0; 1; 1] 0 = v /\
    BitString.on (snd (BitString.flip_site (BitString.mk 3 [0; 1; 1]) 1))
    = BitString.on (BitString.mk 3 [0; 1; 1]) + 1 - 2 * v /\
    BitString.off (snd (BitString.flip_site (BitString.mk 3 [0; 1; 1]) 1))
    = BitString.off (BitString.mk 3 [0; 1; 1]) - 1 + 2 * v.
Proof.
  apply (flip_site_counts (BitString.mk 3 [0; 1; 1]) 1).
  - reflexivity.
  - cbn. lia.
Defined.

(** ** set_config *)

Lemma set_config_loop_prefix :
  forall (s c spre pre extra : list Z),
    length spre = length pre -> length s = length c ->
    forallb in_int64 s = true ->
    BitString.set_config_loop (map Z.of_nat (seq (length pre) (length c)))
      (spre ++ s ++ extra) (pre ++ c)
    = (Ok tt, pre ++ s).
Proof.
  induction s as [|u s IH]; intros [|v c] spre pre extra Hp Hl Hr;
    try discriminate Hl.
  - reflexivity.
  - cbn [length seq map BitString.set_config_loop].
    cbn in Hr. apply andb_prop in Hr as [Hu Hr].
    rewrite <- Hp at 1. cbn [app]. rewrite getitem_app.
    rewrite setitem_app by assumption.
    rewrite (app_cons_assoc spre (s ++ extra)), (app_cons_assoc pre c).
    rewrite <- (length_snoc pre u).
    rewrite IH; [now rewrite <- app_cons_assoc | | | assumption].
    + now rewrite !length_snoc, Hp.
    + now injection Hl.
Qed.

Lemma set_config_loop_short :
  forall (s c1 c2 spre pre : list Z),
    length spre = length pre -> length s = length c1 -> c2 <> [] ->
    forallb in_int64 s = true ->
    BitString.set_config_loop
      (map Z.of_nat (seq (length pre) (length (c1 ++ c2))))
      (spre ++ s) (pre ++ c1 ++ c2)
    = (Raise IndexError, pre ++ s ++ c2).
Proof.
  induction s as [|u s IH]; intros [|v c1] c2 spre pre Hp Hl Hc2 Hr;
    try discriminate Hl.
  - destruct c2 as [|w c2]; [contradiction|].
    cbn [app length seq map BitString.set_config_loop].
    rewrite app_nil_r, <- Hp, getitem_end. reflexivity.
  - cbn [app length seq map BitString.set_config_loop].
    cbn in Hr. apply andb_prop in Hr as [Hu Hr].
    rewrite <- Hp at 1. rewrite getitem_app.
    rewrite setitem_app by assumption.
    rewrite (app_cons_assoc spre s), (app_cons_assoc pre (c1 ++ c2)).
    rewrite <- (length_snoc pre u).
    rewrite IH; [now rewrite <- app_cons_assoc | | | assumption | assumption].
    + now rewrite !length_snoc, Hp.
    + now injection Hl.
Qed.

(** X4.  [set_config(s)] on a bit string of [N] cells, with a list of at
    least [N] values that fit [int64], succeeds and leaves exactly the first
    [N] values of [s] in the cells; whatever [s] holds beyond position [N]
    is ignored. *)
Theorem set_config_copies_prefix (self : BitString.t) (s : list Z) :
  len (BitString.config self) = BitString.N self ->
  BitString.N self <= len s ->
  forallb in_int64 (firstn (Z.to_nat (BitString.N self)) s) = true ->
  BitString.set_config self s
  = (Ok tt,
     BitString.mk (BitString.N self) (firstn (Z.to_nat (BitString.N self)) s)).
Proof.
  intros Hl Hs Hr. unfold len in *. unfold BitString.set_config, range.
  rewrite <- Hl in *. rewrite Nat2Z.id in *.
  rewrite <- (firstn_skipn (length (BitString.config self)) s) at 1.
  pose proof (set_config_loop_prefix
                (firstn (length (BitString.config self)) s)
                (BitString.config self) [] []
                (skipn (length (BitString.config self)) s)) as L.
  cbn [length app] in L. rewrite L; [reflexivity | reflexivity | | assumption].
  rewrite length_firstn. lia.
Qed.

Lemma set_config_copies_prefix_witness :
  BitString.set_config (BitString.mk 3 [0; 0; 0]) [1; 0; 1; 7; 7]
  = (Ok tt, BitString.mk 3 [1; 0; 1]).
Proof.
  apply (set_config_copies_prefix (BitString.mk 3 [0; 0; 0]) [1; 0; 1; 7; 7]).
  - reflexivity.
  - cbn. lia.
  - reflexivity.
Defined.

(** X5.  [set_config(s)] with a list shorter than [N] raises [IndexError],
    and the cells written before the exception stay written: the bit
    string is left holding [s] followed by its own old cells from position
    [len(s)] on. *)
Theorem set_config_short_list (self : BitString.t) (s : list Z) :
  len (BitString.config self) = BitString.N self ->
  len s < BitString.N self ->
  forallb in_int64 s = true ->
  BitString.set_config self s
  = (Raise IndexError,
     BitString.mk (BitString.N self)
       (s ++ skipn (length s) (BitString.config self))).
Proof.
  intros Hl Hs Hr. unfold len in *. unfold BitString.set_config, range.
  rewrite <- Hl in *. rewrite Nat2Z.id.
  rewrite <- (firstn_skipn (length s) (BitString.config self)) at 1 2.
  pose proof (set_config_loop_short s
                (firstn (length s) (BitString.config self))
                (skipn (length s) (BitString.config self)) [] []) as L.
  cbn [length app] in L. rewrite L; [reflexivity | reflexivity | | | assumption].
  - rewrite length_firstn. lia.
  - intros E. apply (f_equal (@length Z)) in E.
    rewrite length_skipn in E. cbn in E. lia.
Qed.

Lemma set_config_short_list_witness :
  BitString.set_config (BitString.mk 4 [0; 0; 0; 0]) [1; 1]
  = (Raise IndexError, BitString.mk 4 [1; 1; 0; 0]).
Proof.
  apply (set_config_short_list (BitString.mk 4 [0; 0; 0; 0]) [1; 1]).
  - reflexivity.
  - cbn. lia.
  - reflexivity.
Defined.

Example test_bitstring_set_config :
  BitString.set_config (BitString.mk 5 [0; 0; 0; 0; 0]) [1; 0; 0; 1; 0]
  = (Ok tt, BitString.mk 5 [1; 0; 0; 1; 0]).
Proof. reflexivity. Qed.

(** ** int *)

Lemma bits_msb_cover (l : list Z) :
  forallb is_bit l = true ->
  exists d, 0 <= d < 2 ^ Z.of_nat (length l) /\ bits_msb (length l) d = l.
Proof.
  induction l as [|b l IH]; intros Hb.
  - exists 0. cbn. split; [lia | reflexivity].
  - cbn [forallb] in Hb. apply andb_prop in Hb as [Hb0 Hb].
    destruct (IH Hb) as (d & Hd & Hbits).
    set (k := length l) in *.
    assert (Hs : 2 ^ Z.of_nat (S k) = 2 * 2 ^ Z.of_nat k)
      by (rewrite Nat2Z.inj_succ, Z.pow_succ_r by lia; ring).
    exists (b * 2 ^ Z.of_nat k + d).
    apply is_bit_cases in Hb0.
    split; [cbn [length]; fold k; rewrite Hs; destruct Hb0; subst b; lia|].
    cbn [length bits_msb]. fold k. f_equal.
    + rewrite testbit_top by (rewrite ?Z.add_1_r, <- ?Nat2Z.inj_succ; lia).
      destruct Hb0; subst b.
      * destruct (Z.leb_spec (2 ^ Z.of_nat k) (0 * 2 ^ Z.of_nat k + d));
          [lia | reflexivity].
      * destruct (Z.leb_spec (2 ^ Z.of_nat k) (1 * 2 ^ Z.of_nat k + d));
          [reflexivity | lia].
    + rewrite <- (bits_msb_mod k (_ + _)).
      rewrite Z.add_comm, Z.mod_add by lia.
      rewrite Z.mod_small by lia. exact Hbits.
Qed.

Lemma wf_bits_decoded (b : BitString.t) :
  wf_bits b = true ->
  exists v,
    0 <= v < 2 ^ BitString.N b /\
    BitString.config b = bits_msb (Z.to_nat (BitString.N b)) v.
Proof.
  intros Hwf. apply wf_bits_elim in Hwf as [Hl Hb].
  destruct (bits_msb_cover _ Hb) as (v & Hv & Hbits).
  unfold len in Hl. rewrite Hl in Hv.
  exists v. split; [assumption|].
  now rewrite <- Hl, Nat2Z.id, Hbits.
Qed.

(** X6.  On a bit string of [N] cells holding bits, [int()] succeeds and
    its value [v] lies in [0, 2^N); the cell at position [x] is bit
    [N - 1 - x] of [v]. *)
Theorem int_in_range (b : BitString.t) :
  wf_bits b = true ->
  exists v,
    BitString.int b = Ok v /\ 0 <= v < 2 ^ BitString.N b /\
    forall x, 0 <= x < BitString.N b ->
      nth (Z.to_nat x) (BitString.config b) 0
      = Z.b2z (Z.testbit v (BitString.N b - 1 - x)).
Proof.
  intros Hwf. destruct (wf_bits_decoded b Hwf) as (v & Hv & Hb).
  assert (Hn : 0 <= BitString.N b).
  { apply wf_bits_elim in Hwf as [Hl _]. unfold len in Hl. lia. }
  destruct b as [n c]. cbn [BitString.N BitString.config] in *. subst c.
  exists v. split; [now apply int_bits|]. split; [assumption|].
  intros x Hx. rewrite bits_msb_nth by lia. do 2 f_equal. lia.
Qed.

Lemma int_in_range_witness :
  exists v,
    BitString.int (BitString.mk 3 [1; 0; 1]) = Ok v /\ 0 <= v < 2 ^ 3 /\
    forall x, 0 <= x < 3 ->
      nth (Z.to_nat x) [1; 0; 1] 0 = Z.b2z (Z.testbit v (3 - 1 - x)).
Proof. apply (int_in_range (BitString.mk 3 [1; 0; 1])). reflexivity. Defined.

(** X7.  [int()] tells bit strings apart: two bit strings of the same
    length holding bits and having the same [int()] are equal. *)
Theorem int_injective (a b : BitString.t) :
  wf_bits a = true -> wf_bits b = true ->
  BitString.N a = BitString.N b ->
  BitString.int a = BitString.int b ->
  a = b.
Proof.
  intros Ha Hb Hn Hint.
  pose proof (wf_bits_elim _ Ha) as [Hla _]. unfold len in Hla.
  destruct (wf_bits_decoded a Ha) as (u & Hu & Ea).
  destruct (wf_bits_decoded b Hb) as (v & Hv & Eb).
  destruct a as [n c], b as [n' c'].
  cbn [BitString.N BitString.config] in *. subst n' c c'.
  rewrite !int_bits in Hint by (try assumption; lia).
  now injection Hint as ->.
Qed.

Lemma int_injective_witness :
  BitString.mk 2 [1; 0] = BitString.mk 2 [1; 0].
Proof.
  apply (int_injective (BitString.mk 2 [1; 0]) (BitString.mk 2 [1; 0]));
    reflexivity.
Defined.

(** X8.  Encoding then decoding: where the comparison on [math.log2] is
    exact below [2^N], [set_int_config(b.int())] on any bit string of the
    same length [N] succeeds and reproduces [b], for every [b] of [N] cells
    holding bits. *)
Theorem int_then_set_int_config {M : Math} (b scratch : BitString.t) :
  wf_bits b = true ->
  BitString.N scratch = BitString.N b ->
  log2_exact_below (BitString.N b) ->
  exists v,
    BitString.int b = Ok v /\
    BitString.set_int_config scratch (PyInt v) = (Ok tt, b).
Proof.
  intros Hwf Hn Hex.
  pose proof (wf_bits_elim _ Hwf) as [Hl _]. unfold len in Hl.
  destruct (wf_bits_decoded b Hwf) as (v & Hv & Hb).
  exists v. split.
  - destruct b as [n c]. cbn [BitString.N BitString.config] in *. subst c.
    apply int_bits; [lia | assumption].
  - rewrite set_int_config_bits by (rewrite Hn; assumption).
    rewrite Hn, <- Hb. now destruct b.
Qed.

Lemma int_then_set_int_config_witness :
  exists v,
    BitString.int (BitString.mk 3 [1; 0; 1]) = Ok v /\
    @BitString.set_int_config ideal_math (BitString.mk 3 [0; 0; 0]) (PyInt v)
    = (Ok tt, BitString.mk 3 [1; 0; 1]).
Proof.
  apply (@int_then_set_int_config ideal_math (BitString.mk 3 [1; 0; 1])
           (BitString.mk 3 [0; 0; 0])).
  - reflexivity.
  - reflexivity.
  - intros dec k _ _. reflexivity.
Defined.

Lemma int_loop_short (n : Z) (cfg : list Z) :
  forall (rest pre : list Z) (m : nat) (acc : Z),
    cfg = pre ++ rest ->
    for_each (map Z.of_nat (seq (length pre) (length rest + S m)))
      (fun x dec =>
         v <- getitem cfg x ;;
         Ok (if v =? 1 then dec + 2 ^ (n - x - 1) else dec))
      acc
    = Raise IndexError.
Proof.
  induction rest as [|v rest IH]; intros pre m acc Hc.
  - cbn [length Nat.add seq map for_each].
    rewrite app_nil_r in Hc. subst cfg. now rewrite getitem_end.
  - cbn [length Nat.add seq map for_each].
    assert (Hg : getitem cfg (Z.of_nat (length pre)) = Ok v)
      by (subst cfg; apply getitem_app).
    rewrite Hg. cbn [bind].
    rewrite <- (length_snoc pre v).
    apply IH. now rewrite <- app_cons_assoc.
Qed.

(** X9.  When the array of a bit string has fewer than [N] cells, [int()]
    raises [IndexError] instead of returning a value. *)
Theorem int_short_array (b : BitString.t) :
  len (BitString.config b) < BitString.N b ->
  BitString.int b = Raise IndexError.
Proof.
  intros Hl. unfold len in Hl. unfold BitString.int, range.
  replace (Z.to_nat (BitString.N b))
    with (length (BitString.config b)
          + S (Z.to_nat (BitString.N b) - length (BitString.config b) - 1))%nat
    by lia.
  exact (int_loop_short (BitString.N b) (BitString.config b)
           (BitString.config b) [] _ 0 eq_refl).
Qed.

Lemma int_short_array_witness :
  BitString.int (BitString.mk 3 [1; 0]) = Raise IndexError.
Proof. apply (int_short_array (BitString.mk 3 [1; 0])). cbn. lia. Defined.

(** ** Comparison with a shorter operand *)

Lemma eq_loop_short :
  forall (sb sa pa pb : list Z),
    length pa = length pb ->
    (length sb < length sa)%nat -> sb = firstn (length sb) sa ->
    BitString.eq_loop (map Z.of_nat (seq (length pa) (length sa)))
      (pa ++ sa) (pb ++ sb) = Raise IndexError.
Proof.
  induction sb as [|v sb IH]; intros [|u sa] pa pb Hp Hlt Hpre;
    cbn [length] in Hlt; try lia.
  - cbn [length seq map BitString.eq_loop].
    rewrite getitem_app. cbn [bind].
    now rewrite Hp, app_nil_r, getitem_end.
  - cbn [length firstn] in Hpre. injection Hpre as -> Hpre.
    cbn [length seq map BitString.eq_loop].
    rewrite getitem_app. cbn [bind]. rewrite Hp, getitem_app. cbn [bind].
    rewrite Z.eqb_refl. cbn [negb].
    rewrite (app_cons_assoc pa sa), (app_cons_assoc pb sb).
    rewrite <- Hp, <- (length_snoc pa u).
    apply IH; [rewrite !length_snoc; lia | lia | assumption].
Qed.

Lemma eq_loop_outcome :
  forall (sa sb pa pb : list Z),
    length pa = length pb ->
    (exists r,
       BitString.eq_loop (map Z.of_nat (seq (length pa) (length sa)))
         (pa ++ sa) (pb ++ sb) = Ok r) \/
    (BitString.eq_loop (map Z.of_nat (seq (length pa) (length sa)))
       (pa ++ sa) (pb ++ sb) = Raise IndexError /\
     (length sb < length sa)%nat /\ sb = firstn (length sb) sa).
Proof.
  induction sa as [|u sa IH]; intros sb pa pb Hp.
  - left. exists true. reflexivity.
  - destruct sb as [|v sb].
    + right. split; [|split; [cbn; lia | reflexivity]].
      apply eq_loop_short; [assumption | cbn; lia | reflexivity].
    + cbn [length seq map BitString.eq_loop].
      rewrite getitem_app. cbn [bind]. rewrite Hp, getitem_app. cbn [bind].
      destruct (Z.eqb_spec u v) as [->|Huv]; cbn [negb].
      * rewrite (app_cons_assoc pa sa), (app_cons_assoc pb sb).
        rewrite <- Hp, <- (length_snoc pa v).
        destruct (IH sb (pa ++ [v]) (pb ++ [v])) as [Hok|(Hr & Hlt & Hpre)].
        { rewrite !length_snoc; lia. }
        { now left. }
        { right. split; [assumption|]. split; [cbn; lia|].
          cbn [length firstn]. now f_equal. }
      * left. now exists false.
Qed.

(** X10.  [a == b] raises [IndexError], rather than answering, exactly when
    [b] has fewer cells than [a] and agrees with [a] on all of them; in
    every other case it returns a boolean. *)
Theorem eq_raises_iff_shorter_prefix (a b : BitString.t) :
  len (BitString.config a) = BitString.N a ->
  (BitString.eq a b = Raise IndexError
   <-> len (BitString.config b) < BitString.N a /\
       BitString.config b
       = firstn (length (BitString.config b)) (BitString.config a)) /\
  ((exists r, BitString.eq a b = Ok r) \/ BitString.eq a b = Raise IndexError).
Proof.
  intros Ha. unfold len in *. unfold BitString.eq, range.
  rewrite <- Ha, Nat2Z.id.
  pose proof (eq_loop_outcome (BitString.config a) (BitString.config b) [] []
                eq_refl) as Hout.
  cbn [length app] in Hout. split.
  - split.
    + intros Hr. destruct Hout as [[r Hok]|(_ & Hlt & Hpre)].
      * rewrite Hok in Hr. discriminate.
      * split; [lia | assumption].
    + intros [Hlt Hpre].
      apply (eq_loop_short (BitString.config b) (BitString.config a) [] []);
        [reflexivity | lia | assumption].
  - destruct Hout as [Hok|(Hr & _)]; [now left | now right].
Qed.

Lemma eq_raises_iff_shorter_prefix_witness :
  BitString.eq (BitString.mk 3 [1; 0; 1]) (BitString.mk 2 [1; 0])
  = Raise IndexError.
Proof.
  apply (eq_raises_iff_shorter_prefix (BitString.mk 3 [1; 0; 1])
           (BitString.mk 2 [1; 0])).
  - reflexivity.
  - split; [cbn; lia | reflexivity].
Defined.

(** ** Decoding zero *)

(** X11.  [set_int_config(0)] never consults [math.log2]: for every
    length [N >= 0] and every behaviour of the comparison it succeeds and
    leaves [N] cells that are all 0. *)
Theorem set_int_config_zero {M : Math} (self : BitString.t) :
  0 <= BitString.N self ->
  BitString.set_int_config self (PyInt 0)
  = (Ok tt,
     BitString.mk (BitString.N self) (repeat 0 (Z.to_nat (BitString.N self)))).
Proof.
  intros Hn. unfold BitString.set_int_config, BitString.init.
  destruct (Z.ltb_spec (BitString.N self) 0); [lia|].
  cbn [BitString.N BitString.config].
  destruct (range (BitString.N self)); reflexivity.
Qed.

Lemma set_int_config_zero_witness :
  @BitString.set_int_config rounding_math (BitString.mk 3 [1; 1; 1]) (PyInt 0)
  = (Ok tt, BitString.mk 3 [0; 0; 0]).
Proof.
  apply (@set_int_config_zero rounding_math (BitString.mk 3 [1; 1; 1])).
  cbn. lia.
Defined.

(** ** __str__ *)

Lemma append_assoc (a b c : String.string) :
  String.append (String.append a b) c = String.append a (String.append b c).
Proof. induction a as [|x a IH]; cbn; [reflexivity | now rewrite IH]. Qed.

Lemma append_length (a b : String.string) :
  String.length (String.append a b) = (String.length a + String.length b)%nat.
Proof. induction a as [|x a IH]; cbn; [reflexivity | now rewrite IH]. Qed.

Lemma str_fold (l : list Z) (init : String.string) :
  fold_left
    (fun string x => String.append (String.append string (py_str x)) " "%string)
    l init
  = String.append init (str_cells l).
Proof.
  revert init. induction l as [|x l IH]; intros init; cbn [fold_left str_cells fold_right].
  - induction init as [|c init IHi]; cbn; [reflexivity | now rewrite <- IHi].
  - rewrite IH, !append_assoc. reflexivity.
Qed.

Lemma BitString_str_shape (self : BitString.t) :
  BitString_str self
  = String.append "[ "%string
      (String.append (str_cells (BitString.config self)) "]"%string).
Proof. unfold BitString_str. now rewrite str_fold, append_assoc. Qed.

Lemma str_cells_bits_inj (l1 l2 : list Z) :
  forallb is_bit l1 = true -> forallb is_bit l2 = true ->
  String.append (str_cells l1) "]"%string
  = String.append (str_cells l2) "]"%string ->
  l1 = l2.
Proof.
  revert l2. induction l1 as [|a l1 IH]; intros [|b l2] H1 H2 E.
  - reflexivity.
  - cbn [forallb] in H2. apply andb_prop in H2 as [Hb _].
    apply is_bit_cases in Hb as [->| ->]; discriminate E.
  - cbn [forallb] in H1. apply andb_prop in H1 as [Ha _].
    apply is_bit_cases in Ha as [->| ->]; discriminate E.
  - cbn [forallb] in H1, H2.
    apply andb_prop in H1 as [Ha H1]. apply andb_prop in H2 as [Hb H2].
    apply is_bit_cases in Ha as [->| ->];
      apply is_bit_cases in Hb as [->| ->];
      try discriminate E;
      (f_equal; apply IH; [assumption | assumption |];
       cbn in E; now injection E).
Qed.

(** X12.  For bit strings holding bits, [__str__] renders each cell as one
    digit and one blank between ["[ "] and ["]"], so the text has
    [2 * len + 3] characters, and it determines the cells: two bit strings
    with the same text hold the same bits. *)
Theorem str_faithful (a b : BitString.t) :
  forallb is_bit (BitString.config a) = true ->
  forallb is_bit (BitString.config b) = true ->
  String.length (BitString_str a)
  = (2 * length (BitString.config a) + 3)%nat /\
  (BitString_str a = BitString_str b ->
   BitString.config a = BitString.config b).
Proof.
  intros Ha Hb. rewrite !BitString_str_shape. split.
  - cbn [String.append String.length]. rewrite append_length.
    cbn [String.length]. f_equal. f_equal.
    clear Hb. induction (BitString.config a) as [|x l IH].
    + reflexivity.
    + cbn [forallb] in Ha. apply andb_prop in Ha as [Hx Ha].
      cbn [str_cells fold_right length]. fold (str_cells l).
      apply is_bit_cases in Hx as [->| ->]; cbn; rewrite IH by assumption; lia.
  - intros E. cbn [String.append] in E. injection E as E.
    now apply str_cells_bits_inj.
Qed.

Lemma str_faithful_witness :
  String.length (BitString_str (BitString.mk 4 [1; 0; 1; 0]))
  = (2 * length [1; 0; 1; 0] + 3)%nat /\
  (BitString_str (BitString.mk 4 [1; 0; 1; 0])
   = BitString_str (BitString.mk 4 [1; 0; 1; 0]) ->
   [1; 0; 1; 0] = [1; 0; 1; 0]).
Proof.
  apply (str_faithful (BitString.mk 4 [1; 0; 1; 0])
           (BitString.mk 4 [1; 0; 1; 0])); reflexivity.
Defined.

Example test_bitstring_str :
  BitString_str (BitString.mk 4 [1; 0; 1; 0]) = "[ 1 0 1 0 ]"%string.
Proof. reflexivity. Qed.

(** ** IsingHamiltonian.__init__ *)







Example IsingHamiltonian_init_huge_strength :
  IsingHamiltonian_init [[(0, inject_Z (10 ^ 400))]] [0%Q]
  = Raise OverflowError.
Proof. vm_compute. reflexivity. Qed.

(** ** What energy reads *)

Lemma getitem_of_nat {A : Type} (a : list A) (k : nat) :
  getitem a (Z.of_nat k)
  = match nth_error a k with
    | Some v => Ok v
    | None => Raise IndexError
    end.
Proof.
  unfold getitem, len. destruct (Nat.lt_ge_cases k (length a)) as [Hk|Hk].
  - now rewrite norm_index_nat.
  - rewrite norm_index_past by assumption. cbn [bind].
    apply nth_error_None in Hk. now rewrite Hk.
Qed.

Lemma nth_error_enumerate_from {A : Type} (l : list A) :
  forall (a i : nat),
    nth_error (combine (map Z.of_nat (seq a (length l))) l) i
    = option_map (fun v => (Z.of_nat (a + i), v)) (nth_error l i).
Proof.
  induction l as [|v l IH]; intros a i.
  - destruct i; reflexivity.
  - destruct i as [|i]; cbn [length seq map combine nth_error option_map].
    + now rewrite Nat.add_0_r.
    + rewrite IH. destruct (nth_error l i); cbn [option_map]; [|reflexivity].
      do 3 f_equal. lia.
Qed.

Lemma nth_error_upper_pairs (J : list (list (Z * Q))) (i : nat) :
  nth_error (upper_pairs J) i
  = option_map (filter (fun p => Z.of_nat i <=? fst p)) (nth_error J i).
Proof.
  unfold upper_pairs, enumerate.
  change (len J) with (Z.of_nat (length J)). rewrite range_seq.
  rewrite nth_error_map, nth_error_enumerate_from.
  destruct (nth_error J i); reflexivity.
Qed.

Lemma energy_pairs_filter (cfg : list Z) (i : Z) :
  forall (Ji : list (Z * Q)) (e : Q),
    for_each (filter (fun p => i <=? fst p) Ji)
      (IsingHamiltonian.energy_pair cfg i) e
    = for_each Ji (IsingHamiltonian.energy_pair cfg i) e.
Proof.
  induction Ji as [|p Ji IH]; intros e; [reflexivity|].
  cbn [filter for_each].
  destruct (Z.leb_spec i (fst p)) as [Hle|Hlt].
  - cbn [for_each].
    destruct (IsingHamiltonian.energy_pair cfg i p e); cbn [bind];
      [apply IH | reflexivity].
  - unfold IsingHamiltonian.energy_pair at 2.
    destruct (Z.ltb_spec (fst p) i); [|lia]. cbn [bind]. apply IH.
Qed.

Lemma upper_pairs_length (J : list (list (Z * Q))) :
  length (upper_pairs J) = length J.
Proof.
  unfold upper_pairs, enumerate. rewrite length_map, length_combine.
  unfold range. rewrite length_map, length_seq. unfold len. lia.
Qed.

(** X14.  [energy] never looks at a pair whose neighbour index is below
    its own site: removing all such pairs from [J] changes neither the
    value nor the exception of [energy], for any bit string. *)
Theorem energy_ignores_lower_pairs (J : list (list (Z * Q))) (mu : list Q)
  (c : BitString.t) :
  IsingHamiltonian.energy (IsingHamiltonian.mk (upper_pairs J) mu) c
  = IsingHamiltonian.energy (IsingHamiltonian.mk J mu) c.
Proof.
  unfold IsingHamiltonian.energy.
  cbn [IsingHamiltonian.J IsingHamiltonian.mu].
  unfold len at 2. rewrite upper_pairs_length. fold (len J).
  destruct (negb (len (BitString.config c) =? len J)); [reflexivity|].
  assert (Hbody : forall (k : nat) (e : Q),
            (Ji <- getitem (upper_pairs J) (Z.of_nat k) ;;
             for_each Ji
               (IsingHamiltonian.energy_pair (BitString.config c) (Z.of_nat k))
               e)
            = (Ji <- getitem J (Z.of_nat k) ;;
               for_each Ji
                 (IsingHamiltonian.energy_pair (BitString.config c)
                    (Z.of_nat k)) e)).
  { intros k e. rewrite !getitem_of_nat, nth_error_upper_pairs.
    destruct (nth_error J k); cbn [option_map bind]; [|reflexivity].
    apply energy_pairs_filter. }
  unfold range.
  assert (Hfor : forall (ks : list nat) (e : Q),
            for_each (map Z.of_nat ks)
              (fun i e0 =>
                 Ji <- getitem (upper_pairs J) i ;;
                 for_each Ji
                   (IsingHamiltonian.energy_pair (BitString.config c) i) e0) e
            = for_each (map Z.of_nat ks)
                (fun i e0 =>
                   Ji <- getitem J i ;;
                   for_each Ji
                     (IsingHamiltonian.energy_pair (BitString.config c) i) e0)
                e).
  { induction ks as [|k ks IH]; intros e; [reflexivity|].
    cbn [map for_each]. rewrite Hbody.
    destruct (Ji <- getitem J (Z.of_nat k) ;; _); cbn [bind];
      [apply IH | reflexivity]. }
  now rewrite Hfor.
Qed.

Example energy_drops_one_sided_pair :
  IsingHamiltonian.energy
    (IsingHamiltonian.mk [[]; [(0, 5%Q)]] [0%Q; 0%Q]) (BitString.mk 2 [0; 1])
  = IsingHamiltonian.energy
      (IsingHamiltonian.mk [[]; []] [0%Q; 0%Q]) (BitString.mk 2 [0; 1]).
Proof. reflexivity. Qed.

(** ** The failures of energy *)

Lemma energy_np_dot_raises (h : IsingHamiltonian.t) (c : BitString.t) :
  len (BitString.config c) = IsingHamiltonian.N h ->
  BitString.N c = IsingHamiltonian.N h ->
  forallb (valid_neighbours (IsingHamiltonian.N h)) (IsingHamiltonian.J h)
  = true ->
  len (IsingHamiltonian.mu h) <> IsingHamiltonian.N h ->
  IsingHamiltonian.energy h c = Raise ValueError.
Proof.
  intros Hl Hn HJ Hmu. unfold IsingHamiltonian.energy.
  unfold IsingHamiltonian.N in *.
  destruct (Z.eqb_spec (len (BitString.config c)) (len (IsingHamiltonian.J h)));
    [|lia].
  cbn [negb]. rewrite Hn.
  change (range (len (IsingHamiltonian.J h)))
    with (range (Z.of_nat (length (IsingHamiltonian.J h)))).
  rewrite range_seq.
  destruct (energy_sites_sum (IsingHamiltonian.J h) (BitString.config c))
    with (rest := IsingHamiltonian.J h) (pre := @nil (list (Z * Q)))
         (e := 0%Q) as (e1 & He1 & _).
  - lia.
  - reflexivity.
  - now rewrite Hl.
  - cbn [length] in He1. rewrite He1. cbn [bind].
    unfold np_dot.
    assert (Hs : len (spins (BitString.config c)) = len (BitString.config c))
      by (unfold len, spins; now rewrite length_map).
    rewrite Hs.
    destruct (Z.eqb_spec (len (IsingHamiltonian.mu h))
                (len (BitString.config c))); [lia | reflexivity].
Qed.

(** X15.  With a bit string of the model's size and valid neighbour
    indices, a field vector whose length is not the number of sites makes
    [energy] raise [ValueError] (from [np.dot]) after the pair loop. *)
Theorem energy_field_length_mismatch (h : IsingHamiltonian.t) (c : BitString.t) :
  len (BitString.config c) = IsingHamiltonian.N h ->
  BitString.N c = IsingHamiltonian.N h ->
  forallb (valid_neighbours (IsingHamiltonian.N h)) (IsingHamiltonian.J h)
  = true ->
  len (IsingHamiltonian.mu h) <> IsingHamiltonian.N h ->
  IsingHamiltonian.energy h c = Raise ValueError.
Proof. exact (energy_np_dot_raises h c). Qed.

Lemma energy_field_length_mismatch_witness :
  IsingHamiltonian.energy
    (IsingHamiltonian.mk [[(1, 1%Q)]; []] [0%Q]) (BitString.mk 2 [0; 1])
  = Raise ValueError.
Proof.
  apply (energy_field_length_mismatch
           (IsingHamiltonian.mk [[(1, 1%Q)]; []] [0%Q]) (BitString.mk 2 [0; 1]));
    try reflexivity.
  cbn. lia.
Defined.

Lemma getitem_past {A : Type} (a : list A) (j : Z) :
  len a <= j -> getitem a j = Raise IndexError.
Proof.
  intros Hj. unfold getitem, norm_index.
  destruct (Z.ltb_spec j (len a)); [lia|].
  destruct (Z.ltb_spec j 0); [unfold len in *; lia|].
  now rewrite !andb_false_r.
Qed.

Lemma energy_pairs_outcome (cfg : list Z) (i : Z) :
  0 <= i < len cfg ->
  forall (Ji : list (Z * Q)) (e : Q),
    if existsb (fun p => len cfg <=? fst p) Ji
    then for_each Ji (IsingHamiltonian.energy_pair cfg i) e = Raise IndexError
    else exists e', for_each Ji (IsingHamiltonian.energy_pair cfg i) e = Ok e'.
Proof.
  intros Hi. induction Ji as [|[j s] Ji IH]; intros e.
  - cbn. now exists e.
  - cbn [existsb for_each fst].
    unfold IsingHamiltonian.energy_pair at 1 3. cbn [fst snd].
    destruct (Z.leb_spec (len cfg) j) as [Hbad|Hok]; cbn [orb].
    + destruct (Z.ltb_spec j i); [lia|].
      rewrite (getitem_bit cfg i Hi). cbn [bind].
      now rewrite getitem_past.
    + destruct (Z.ltb_spec j i); cbn [bind]; [apply IH|].
      rewrite (getitem_bit cfg i Hi), (getitem_bit cfg j) by lia.
      cbn [bind]. apply IH.
Qed.

Lemma energy_sites_outcome (J : list (list (Z * Q))) (cfg : list Z) :
  len J = len cfg ->
  forall (rest pre : list (list (Z * Q))) (e : Q),
    J = pre ++ rest ->
    if existsb (existsb (fun p => len cfg <=? fst p)) rest
    then for_each (map Z.of_nat (seq (length pre) (length rest)))
           (fun i e0 =>
              Ji <- getitem J i ;;
              for_each Ji (IsingHamiltonian.energy_pair cfg i) e0) e
         = Raise IndexError
    else exists e',
           for_each (map Z.of_nat (seq (length pre) (length rest)))
             (fun i e0 =>
                Ji <- getitem J i ;;
                for_each Ji (IsingHamiltonian.energy_pair cfg i) e0) e
           = Ok e'.
Proof.
  intros Hlen. induction rest as [|Ji rest IH]; intros pre e HJ.
  - cbn. now exists e.
  - cbn [existsb length seq map for_each].
    assert (Hg : getitem J (Z.of_nat (length pre)) = Ok Ji)
      by (rewrite HJ; apply getitem_app).
    cbv beta. rewrite Hg. cbn [bind].
    assert (Hi : 0 <= Z.of_nat (length pre) < len cfg).
    { rewrite <- Hlen, HJ. unfold len. rewrite length_app. cbn [length]. lia. }
    pose proof (energy_pairs_outcome cfg _ Hi Ji e) as Hin.
    destruct (existsb (fun p => len cfg <=? fst p) Ji); cbn [orb].
    + now rewrite Hin.
    + destruct Hin as [e1 He1]. rewrite He1. cbn [bind].
      rewrite <- (length_snoc pre Ji).
      apply IH. now rewrite <- app_cons_assoc.
Qed.

(** X16.  With a bit string of the model's size, [energy] raises
    [IndexError] as soon as some site lists a neighbour index that is not
    below the number of sites, whatever the strength of that pair and
    wherever it stands. *)
Theorem energy_neighbour_out_of_range (h : IsingHamiltonian.t) (c : BitString.t) :
  len (BitString.config c) = IsingHamiltonian.N h ->
  BitString.N c = IsingHamiltonian.N h ->
  existsb (existsb (fun p => IsingHamiltonian.N h <=? fst p))
    (IsingHamiltonian.J h) = true ->
  IsingHamiltonian.energy h c = Raise IndexError.
Proof.
  intros Hl Hn Hbad. unfold IsingHamiltonian.energy.
  unfold IsingHamiltonian.N in *.
  destruct (Z.eqb_spec (len (BitString.config c)) (len (IsingHamiltonian.J h)));
    [|lia].
  cbn [negb]. rewrite Hn.
  change (range (len (IsingHamiltonian.J h)))
    with (range (Z.of_nat (length (IsingHamiltonian.J h)))).
  rewrite range_seq.
  pose proof (energy_sites_outcome (IsingHamiltonian.J h) (BitString.config c)
                (eq_sym Hl) (IsingHamiltonian.J h) [] 0%Q eq_refl) as Hout.
  rewrite Hl, Hbad in Hout. cbn [length] in Hout.
  now rewrite Hout.
Qed.

Lemma energy_neighbour_out_of_range_witness :
  IsingHamiltonian.energy
    (IsingHamiltonian.mk [[(1, 1%Q)]; [(2, 1%Q)]] [0%Q; 0%Q])
    (BitString.mk 2 [0; 1])
  = Raise IndexError.
Proof.
  apply (energy_neighbour_out_of_range
           (IsingHamiltonian.mk [[(1, 1%Q)]; [(2, 1%Q)]] [0%Q; 0%Q])
           (BitString.mk 2 [0; 1])); reflexivity.
Defined.

(** ** Inverting every spin *)

Lemma bit_complement (cfg : list Z) (i : Z) :
  0 <= i < len cfg -> bit (complement cfg) i = 1 - bit cfg i.
Proof.
  intros Hi. unfold bit, complement, len in *.
  rewrite (nth_indep _ 0 (1 - 0)) by (rewrite length_map; lia).
  now rewrite (map_nth (fun b => 1 - b)).
Qed.

Lemma site_term_complement (cfg : list Z) (i : Z) (Ji : list (Z * Q)) :
  0 <= i < len cfg -> valid_neighbours (len cfg) Ji = true ->
  site_term (complement cfg) i Ji = site_term cfg i Ji.
Proof.
  intros Hi Hv. unfold site_term. f_equal. apply map_ext_in.
  intros p Hp. apply filter_In in Hp as [Hp _].
  unfold valid_neighbours in Hv. rewrite forallb_forall in Hv.
  specialize (Hv p Hp). apply andb_prop in Hv as [H0 Hn].
  apply Z.leb_le in H0. apply Z.ltb_lt in Hn.
  unfold pair_term. rewrite !bit_complement by lia.
  destruct (Z.eqb_spec (bit cfg i) (bit cfg (fst p)));
    destruct (Z.eqb_spec (1 - bit cfg i) (1 - bit cfg (fst p)));
    try reflexivity; lia.
Qed.

Lemma coupling_energy_complement (cfg : list Z) (sites : list Z)
  (J : list (list (Z * Q))) :
  (forall i, In i sites -> 0 <= i < len cfg) ->
  forallb (valid_neighbours (len cfg)) J = true ->
  coupling_energy sites J (complement cfg) = coupling_energy sites J cfg.
Proof.
  intros Hs HJ. unfold coupling_energy. f_equal. apply map_ext_in.
  intros [i Ji] Hin. cbn [fst snd].
  apply site_term_complement.
  - apply Hs. eapply in_combine_l; eassumption.
  - rewrite forallb_forall in HJ. apply HJ. eapply in_combine_r; eassumption.
Qed.

Lemma field_energy_zero (mu : list Q) :
  forallb (fun m => Qeq_bool m 0) mu = true ->
  forall cfg, (field_energy mu cfg == 0)%Q.
Proof.
  unfold field_energy. induction mu as [|m mu IH]; intros Hz cfg.
  - reflexivity.
  - destruct cfg as [|b cfg]; [reflexivity|].
    cbn [forallb] in Hz. apply andb_prop in Hz as [Hm Hz].
    apply Qeq_bool_iff in Hm.
    cbn [combine map fst snd]. rewrite Qsum_cons, (IH Hz cfg), Hm. ring.
Qed.

Lemma complement_wf (c : BitString.t) :
  wf_bits c = true ->
  wf_bits (BitString.mk (BitString.N c) (complement (BitString.config c)))
  = true.
Proof.
  intros Hwf. apply wf_bits_elim in Hwf as [Hl Hb].
  apply wf_bits_intro.
  - unfold len, complement in *. now rewrite length_map.
  - unfold complement. clear Hl.
    induction (BitString.config c) as [|b l IH]; [reflexivity|].
    cbn [forallb map] in *. apply andb_prop in Hb as [Hb0 Hb].
    rewrite IH by assumption.
    apply is_bit_cases in Hb0 as [->| ->]; reflexivity.
Qed.

(** X17.  With all fields zero the energy does not change when every bit
    is inverted: for a valid model and a bit string of its size holding
    bits, [energy] succeeds on the bit string and on its complement with
    the same value. *)
Theorem energy_spin_flip_symmetry (h : IsingHamiltonian.t) (c : BitString.t) :
  wf_model h = true -> wf_bits c = true ->
  BitString.N c = IsingHamiltonian.N h ->
  forallb (fun m => Qeq_bool m 0) (IsingHamiltonian.mu h) = true ->
  exists e e',
    IsingHamiltonian.energy h c = Ok e /\
    IsingHamiltonian.energy h
      (BitString.mk (BitString.N c) (complement (BitString.config c)))
    = Ok e' /\
    (e' == e)%Q.
Proof.
  intros Hh Hc Hn Hz.
  destruct (energy_sum h c Hh Hc Hn) as (e & He & Heq).
  destruct (energy_sum h _ Hh (complement_wf c Hc) Hn) as (e' & He' & Heq').
  exists e, e'. split; [assumption|]. split; [assumption|].
  rewrite Heq, Heq'. cbn [BitString.config]. unfold energy_spec.
  pose proof (wf_bits_elim _ Hc) as [Hl _].
  pose proof (wf_model_elim _ Hh) as [_ HJ].
  rewrite coupling_energy_complement.
  - now rewrite !(field_energy_zero _ Hz).
  - intros i Hi. apply In_range in Hi. lia.
  - now rewrite Hl, Hn.
Qed.

Lemma energy_spin_flip_symmetry_witness :
  exists e e',
    IsingHamiltonian.energy chain3_aligned (BitString.mk 3 [0; 1; 1]) = Ok e /\
    IsingHamiltonian.energy chain3_aligned (BitString.mk 3 [1; 0; 0]) = Ok e' /\
    (e' == e)%Q.
Proof.
  apply (energy_spin_flip_symmetry chain3_aligned (BitString.mk 3 [0; 1; 1]));
    reflexivity.
Defined.

(** ** Which minimum the search returns *)

Section FirstMinimum.
Context {M : Math}.
Variable h : IsingHamiltonian.t.
Hypothesis Hwf : wf_model h = true.
Hypothesis Hexact : log2_exact_below (IsingHamiltonian.N h).

Lemma lowest_loop_first :
  forall (k a : nat) (conf : BitString.t) (emin : Q) (xmin : pyobj),
    BitString.N conf = IsingHamiltonian.N h ->
    Z.of_nat (a + k) <= 2 ^ IsingHamiltonian.N h ->
    best_so_far h emin xmin ->
    (forall i, 0 <= i < Z.of_nat a -> (emin <= energy_at h i)%Q) ->
    (forall j, xmin = PyInt j ->
       j < Z.of_nat a /\ forall i, 0 <= i < j -> (emin < energy_at h i)%Q) ->
    exists conf' emin' xmin',
      for_each (map Z.of_nat (seq a k)) (IsingHamiltonian.lowest_step h)
        (conf, emin, xmin)
      = Ok (conf', emin', xmin') /\
      best_so_far h emin' xmin' /\
      (forall i, 0 <= i < Z.of_nat (a + k) -> (emin' <= energy_at h i)%Q) /\
      (forall j, xmin' = PyInt j ->
         j < Z.of_nat (a + k) /\
         forall i, 0 <= i < j -> (emin' < energy_at h i)%Q).
Proof.
  induction k as [|k IH]; intros a conf emin xmin Hn Hbound Hbest Hall Hfirst.
  - exists conf, emin, xmin. rewrite Nat.add_0_r.
    split; [reflexivity|]. split; [assumption|]. split; assumption.
  - assert (Hi : 0 <= Z.of_nat a < 2 ^ IsingHamiltonian.N h) by lia.
    destruct (decode_then_energy h Hwf Hexact conf _ Hn Hi)
      as [Hset (e & He & Heq)].
    fold (energy_at h (Z.of_nat a)) in Heq.
    cbn [seq map for_each]. unfold IsingHamiltonian.lowest_step at 1.
    rewrite Hset. cbn [bind]. rewrite He. cbn [bind].
    assert (H0 : (emin <= energy_at h 0)%Q).
    { destruct Hbest as [[_ H]|(j & _ & _ & _ & H)].
      - rewrite H. apply Qle_refl.
      - now apply Qlt_le_weak. }
    replace (a + S k)%nat with (S a + k)%nat by lia.
    destruct (Qlt_bool e emin) eqn:Elt; cbn [bind].
    + apply Qlt_bool_true in Elt.
      apply (IH (S a)); try reflexivity; try lia.
      * right. exists (Z.of_nat a). repeat split; try assumption; try lia.
        eapply Qlt_le_trans; eassumption.
      * intros i Hi'. destruct (Z.eq_dec i (Z.of_nat a)) as [->|Hne].
        -- rewrite Heq. apply Qle_refl.
        -- apply Qlt_le_weak. apply Qlt_le_trans with emin; [assumption|].
           apply Hall. lia.
      * intros j [= <-]. split; [lia|].
        intros i Hi'. apply Qlt_le_trans with emin; [assumption|].
        apply Hall. lia.
    + apply Qlt_bool_false in Elt.
      apply (IH (S a)); try reflexivity; try lia; try assumption.
      * intros i Hi'. destruct (Z.eq_dec i (Z.of_nat a)) as [->|Hne].
        -- rewrite <- Heq. assumption.
        -- apply Hall. lia.
      * intros j Hj. destruct (Hfirst j Hj) as [Hlt Hbefore].
        split; [lia | assumption].
Qed.

Lemma lowest_search_first :
  0 <= IsingHamiltonian.N h < 63 ->
  exists conf emin xmin,
    (my_bs <- BitString.init (IsingHamiltonian.N h) ;;
     my_bs <- call (BitString.set_int_config my_bs (PyInt 0)) ;;
     emin0 <- IsingHamiltonian.energy h my_bs ;;
     for_each (range (np_power2 (BitString.N my_bs)))
       (IsingHamiltonian.lowest_step h) (my_bs, emin0, PyNone))
    = Ok (conf, emin, xmin) /\
    best_so_far h emin xmin /\
    (forall i, 0 <= i < 2 ^ IsingHamiltonian.N h ->
       (emin <= energy_at h i)%Q) /\
    (forall j, xmin = PyInt j ->
       forall i, 0 <= i < j -> (emin < energy_at h i)%Q).
Proof.
  intros HN. unfold BitString.init.
  destruct (Z.ltb_spec (IsingHamiltonian.N h) 0); [lia|]. cbn [bind].
  assert (Hp : 0 < 2 ^ IsingHamiltonian.N h) by (apply Z.pow_pos_nonneg; lia).
  destruct (decode_then_energy h Hwf Hexact
              (BitString.mk (IsingHamiltonian.N h)
                 (repeat 0 (Z.to_nat (IsingHamiltonian.N h)))) 0 eq_refl
              ltac:(lia))
    as [Hset (e & He & Heq)].
  rewrite Hset. cbn [bind]. rewrite He. cbn [bind BitString.N].
  rewrite np_power2_small by assumption. unfold range.
  destruct (lowest_loop_first (Z.to_nat (2 ^ IsingHamiltonian.N h)) 0
              (BitString.mk (IsingHamiltonian.N h) (config_of h 0)) e PyNone)
    as (conf & emin & xmin & Hrun & Hb & Hall & Hfirst).
  - reflexivity.
  - lia.
  - left. split; [reflexivity | exact Heq].
  - intros i Hi. lia.
  - intros j Hj. discriminate Hj.
  - exists conf, emin, xmin. split; [exact Hrun|]. split; [exact Hb|].
    split.
    + intros i Hi. apply Hall. lia.
    + intros j Hj. now apply Hfirst.
Qed.

Lemma lowest_first_minimum :
  0 <= IsingHamiltonian.N h < 63 ->
  (exists i, 0 <= i < 2 ^ IsingHamiltonian.N h /\
             (energy_at h i < energy_at h 0)%Q) ->
  exists emin j,
    IsingHamiltonian.get_lowest_energy_config h = Ok (emin, config_of h j) /\
    0 <= j < 2 ^ IsingHamiltonian.N h /\
    (emin == energy_at h j)%Q /\
    (forall i, 0 <= i < 2 ^ IsingHamiltonian.N h ->
       (energy_at h j <= energy_at h i)%Q) /\
    (forall i, 0 <= i < j -> (energy_at h j < energy_at h i)%Q).
Proof.
  intros HN (i & Hi & Hlt).
  destruct (lowest_search_first HN)
    as (conf & emin & xmin & Hrun & Hb & Hall & Hfirst).
  assert (Hconf : BitString.N conf = IsingHamiltonian.N h).
  { destruct (lowest_search h Hwf Hexact HN)
      as (conf2 & emin2 & xmin2 & Hrun2 & Hn2 & _).
    rewrite Hrun in Hrun2. now injection Hrun2 as -> _ _. }
  rewrite get_lowest_energy_config_unfold, Hrun. cbn [bind].
  destruct Hb as [[_ He0]|(j & -> & Hj & Hej & _)].
  - exfalso. specialize (Hall i Hi). rewrite He0 in Hall.
    apply (Qlt_irrefl (energy_at h i)). eapply Qlt_le_trans; eassumption.
  - exists emin, j.
    rewrite set_int_config_bits by (rewrite Hconf; assumption).
    unfold call. cbn [fst snd bind BitString.config]. rewrite Hconf.
    split; [reflexivity|]. split; [assumption|]. split; [assumption|].
    split.
    + intros i' Hi'. rewrite <- Hej. now apply Hall.
    + intros i' Hi'. rewrite <- Hej. now apply (Hfirst j eq_refl).
Qed.

End FirstMinimum.

(** X18.  On a model where binary64 arithmetic is exact (integer
    strengths and fields whose absolute values add up to less than [2^53]),
    when some configuration has an energy strictly below that of index 0,
    [get_lowest_energy_config] returns the minimum of the energy over all
    [2^N] indices together with the configuration of the lowest index that
    attains it, so ties go to the smallest index.  The comparison on
    [math.log2] is assumed exact below [2^N], and [N < 63] so that
    [np.power(2, N)] does not overflow. *)
Theorem get_lowest_energy_config_first_minimum {M : Math}
  (h : IsingHamiltonian.t) :
  wf_model h = true ->
  binary64_exact h = true ->
  log2_exact_below (IsingHamiltonian.N h) ->
  0 <= IsingHamiltonian.N h < 63 ->
  (exists i, 0 <= i < 2 ^ IsingHamiltonian.N h /\
             (energy_at h i < energy_at h 0)%Q) ->
  exists emin j,
    IsingHamiltonian.get_lowest_energy_config h = Ok (emin, config_of h j) /\
    0 <= j < 2 ^ IsingHamiltonian.N h /\
    (emin == energy_at h j)%Q /\
    (forall i, 0 <= i < 2 ^ IsingHamiltonian.N h ->
       (energy_at h j <= energy_at h i)%Q) /\
    (forall i, 0 <= i < j -> (energy_at h j < energy_at h i)%Q).
Proof. intros Hwf _ Hex. now apply lowest_first_minimum. Qed.

Lemma get_lowest_energy_config_first_minimum_witness :
  exists emin j,
    @IsingHamiltonian.get_lowest_energy_config ideal_math chain3_integer
    = Ok (emin, config_of chain3_integer j) /\
    0 <= j < 2 ^ IsingHamiltonian.N chain3_integer /\
    (emin == energy_at chain3_integer j)%Q /\
    (forall i, 0 <= i < 2 ^ IsingHamiltonian.N chain3_integer ->
       (energy_at chain3_integer j <= energy_at chain3_integer i)%Q) /\
    (forall i, 0 <= i < j ->
       (energy_at chain3_integer j < energy_at chain3_integer i)%Q).
Proof.
  apply (@get_lowest_energy_config_first_minimum ideal_math chain3_integer).
  - reflexivity.
  - reflexivity.
  - intros dec k _ _. reflexivity.
  - cbn. lia.
  - exists 2. split; [cbn; lia|]. vm_compute. reflexivity.
Defined.

Example binary64_exact_rejects_large_strengths :
  binary64_exact
    (IsingHamiltonian.mk [[(1, inject_Z (- 10 ^ 16))]; []] [0%Q; (-1)%Q])
  = false.
Proof. vm_compute. reflexivity. Qed.

Example get_lowest_energy_config_chain3_integer :
  exists emin,
    @IsingHamiltonian.get_lowest_energy_config ideal_math chain3_integer
    = Ok (emin, [0; 1; 0]) /\ (emin == -3)%Q.
Proof. eexists. split; [vm_compute; reflexivity | reflexivity]. Qed.

(** ** A field vector of the wrong length under enumeration *)

Lemma set_int_config_zero_call {M : Math} (n : Z) :
  0 <= n ->
  call (BitString.set_int_config (BitString.mk n (repeat 0 (Z.to_nat n)))
          (PyInt 0))
  = Ok (BitString.mk n (repeat 0 (Z.to_nat n))).
Proof.
  intros Hn. unfold BitString.set_int_config, BitString.init.
  cbn [BitString.N BitString.config].
  destruct (Z.ltb_spec n 0); [lia|].
  cbn [BitString.N BitString.config].
  destruct (range n); reflexivity.
Qed.

(** X19.  Neither enumeration checks the field vector: with valid
    neighbour indices and a field vector whose length is not the number of
    sites, [compute_average_values] and [get_lowest_energy_config] both
    raise [ValueError] at their first energy evaluation, before any sum or
    minimum exists. *)
Theorem enumeration_field_length_mismatch {M : Math} (h : IsingHamiltonian.t)
  (T : R) :
  forallb (valid_neighbours (IsingHamiltonian.N h)) (IsingHamiltonian.J h)
  = true ->
  len (IsingHamiltonian.mu h) <> IsingHamiltonian.N h ->
  IsingHamiltonian.compute_average_values h T = Raise ValueError /\
  IsingHamiltonian.get_lowest_energy_config h = Raise ValueError.
Proof.
  intros HJ Hmu. pose proof (N_nonneg h) as Hn.
  assert (He : IsingHamiltonian.energy h
                 (BitString.mk (IsingHamiltonian.N h)
                    (repeat 0 (Z.to_nat (IsingHamiltonian.N h))))
               = Raise ValueError).
  { apply energy_np_dot_raises; try assumption; cbn [BitString.N BitString.config].
    - unfold len. rewrite repeat_length. lia.
    - reflexivity. }
  split.
  - unfold IsingHamiltonian.compute_average_values, BitString.init.
    destruct (Z.ltb_spec (IsingHamiltonian.N h) 0); [lia|].
    cbn [bind BitString.N]. unfold range.
    assert (Hp : 0 < 2 ^ IsingHamiltonian.N h)
      by (apply Z.pow_pos_nonneg; lia).
    destruct (Z.to_nat (2 ^ IsingHamiltonian.N h)) as [|m] eqn:E; [lia|].
    cbn [seq map for_each Z.of_nat].
    unfold IsingHamiltonian.average_step at 1.
    rewrite set_int_config_zero_call by assumption. cbn [bind].
    now rewrite He.
  - unfold IsingHamiltonian.get_lowest_energy_config, BitString.init.
    destruct (Z.ltb_spec (IsingHamiltonian.N h) 0); [lia|].
    cbn [bind]. rewrite set_int_config_zero_call by assumption. cbn [bind].
    now rewrite He.
Qed.

Lemma enumeration_field_length_mismatch_witness :
  @IsingHamiltonian.compute_average_values ideal_math
    (IsingHamiltonian.mk [[(1, 1%Q)]; []] [0%Q]) 1
  = Raise ValueError /\
  @IsingHamiltonian.get_lowest_energy_config ideal_math
    (IsingHamiltonian.mk [[(1, 1%Q)]; []] [0%Q])
  = Raise ValueError.
Proof.
  apply (@enumeration_field_length_mismatch ideal_math
           (IsingHamiltonian.mk [[(1, 1%Q)]; []] [0%Q]) 1%R).
  - reflexivity.
  - cbn. lia.
Defined.

(** ** Examples for the decoding lemmas *)

Lemma roundtrip_when_log2_exact_witness :
  let r := @BitString.set_int_config ideal_math
             (BitString.mk 8 [1; 1; 1; 1; 1; 1; 1; 1]) (PyInt 97) in
  fst r = Ok tt /\
  BitString.int (snd r) = Ok 97 /\
  BitString.N (snd r) = 8 /\
  len (BitString.config (snd r)) = 8 /\
  forall x, 0 <= x < 8 ->
    nth (Z.to_nat x) (BitString.config (snd r)) 0
    = Z.b2z (Z.testbit 97 (8 - 1 - x)).
Proof.
  apply (@roundtrip_when_log2_exact ideal_math
           (BitString.mk 8 [1; 1; 1; 1; 1; 1; 1; 1]) 97).
  - intros dec k _ _. reflexivity.
  - cbn. lia.
Defined.

Lemma set_int_config_reads_N_only_witness :
  fst (@BitString.set_int_config ideal_math (BitString.mk 3 [1; 1; 1])
         (PyInt 2))
  = fst (@BitString.set_int_config ideal_math (BitString.mk 3 [0; 0; 1; 7])
           (PyInt 2)) /\
  (fst (@BitString.set_int_config ideal_math (BitString.mk 3 [1; 1; 1])
          (PyInt 2)) = Ok tt ->
   snd (@BitString.set_int_config ideal_math (BitString.mk 3 [1; 1; 1])
          (PyInt 2))
   = snd (@BitString.set_int_config ideal_math (BitString.mk 3 [0; 0; 1; 7])
            (PyInt 2))).
Proof.
  apply (@set_int_config_reads_N_only ideal_math (BitString.mk 3 [1; 1; 1])
           (BitString.mk 3 [0; 0; 1; 7]) (PyInt 2)).
  reflexivity.
Defined.
